(** * qasm2stim: the OpenQASM 2 to Stim translator of [qasm2stim.cpp]

    A shallow embedding of the scanner ([isDigit], [isSpace], [eatWS],
    [eatLine], [toFloat], [toQubit], [match]), of the gate catalog
    ([GATE_QASM], [GATE_STIM], [Circuit::translate_gate]) and of the
    translation itself ([Circuit::read_gate], [Circuit::to_stim]).

    Conventions of the embedding.
    - A buffer of [char] is a [string]: a list of 8-bit [ascii] values.
    - The read cursor [char* from] only ever moves forward and is only ever
      compared with [eof], so it is represented by the part of the input
      that is still to be read: [*from] is the first character of that
      suffix, [from++] drops it, and [from < eof] says it is not empty.
      The byte at [eof] reads as NUL ([qasm[size] = '\0'] after the
      [calloc(size + 1)] of the portable branch, the zero fill of the last
      page in the [mmap] branch).
    - The write cursor [char* to] is represented by the bytes stored through
      it so far; [*to++ = c] appends [c].  Whether those stores stay inside
      the block [calloc(size + 1)] is not part of the functions: it is
      stated separately with [stim_capacity], and the room of [max_qubits]
      with [MAX_QUBIT_DIGITS].
    - A read that leaves the buffer is the outcome [ReadPastEnd]: only the
      loop of [toFloat] can run over the NUL at [eof].  What the program
      does then depends on the memory after the buffer; the functions that
      use [eof] are given a second time over that memory ([to_stim_in]).
    - [LOGERROR] prints a diagnostic and calls [exit(1)]: the functions that
      can reach it return a [result], and an [Err] ends the run. *)

From Stdlib Require Import ZArith String Ascii List Bool Lia QArith Floats Uint63.
Import ListNotations.
Local Close Scope Q_scope.
Local Open Scope string_scope.

(** ** Platform configuration *)

(** What the source leaves to the compilation platform: the
    [#if defined(__linux__) || defined(__CYGWIN__)] blocks that store a
    carriage return before every line feed, and the signedness of plain
    [char] (signed on the x86 and x86-64 ABIs, unsigned on Linux/ARM). *)
Record Platform : Type := {
  linux_or_cygwin : bool;
  char_is_signed : bool
}.

(** ** Errors *)

(** The [LOGERROR] exits, named as in the specification's taxonomy, and two
    outcomes that are not diagnostics of the program: [ReadPastEnd], the
    read of [toFloat] beyond the terminating NUL of the input (undefined
    behaviour in the source), and [OutOfFuel], which the loops of the
    embedding return when their iteration budget is used up (shown below
    never to happen). *)
Inductive error : Type :=
| MalformedVersion            (* "expected a digit but ASCII(%d) is found" *)
| UnsupportedVersion          (* "QASM version %.3f not compatible." *)
| MalformedQubitRef           (* "expected q / [ / a digit / ] ..." *)
| GateNameTooLong             (* "gate name is too long." *)
| UnknownGate (name : string) (* "unknown gate %s." *)
| ReadPastEnd
| OutOfFuel.

Inductive result (A : Type) : Type :=
| Ok (a : A)
| Err (e : error).

Arguments Ok {A} a.
Arguments Err {A} e.

Definition bind {A B : Type} (r : result A) (k : A -> result B) : result B :=
  match r with
  | Ok a => k a
  | Err e => Err e
  end.

Notation "x <- e ;; k" := (bind e (fun x => k))
  (at level 61, e at next level, right associativity).
Notation "' pat <- e ;; k" := (bind e (fun x => match x with pat => k end))
  (at level 61, pat pattern, e at next level, right associativity).

(** ** Characters and cursors *)

Definition NUL : ascii := "000"%char.
Definition LF : ascii := "010"%char.
Definition CR : ascii := "013"%char.
Definition DQUOTE : ascii := "034"%char.

(** [*str]: the character under the cursor, NUL at the end of the buffer. *)
Definition deref (str : string) : ascii :=
  match str with
  | String ch _ => ch
  | EmptyString => NUL
  end.

(** [str++] *)
Definition advance (str : string) : string :=
  match str with
  | String _ rest => rest
  | EmptyString => EmptyString
  end.

(** [str += n] *)
Fixpoint drop (n : nat) (str : string) : string :=
  match n with
  | O => str
  | S n' => drop n' (advance str)
  end.

(** [from < eof] *)
Definition before_eof (from : string) : bool :=
  match from with
  | EmptyString => false
  | String _ _ => true
  end.

Section Translator.

Variable P : Platform.

(** The value of a [char] once promoted to [int]. *)
Definition char_val (ch : ascii) : Z :=
  let n := Z.of_N (N_of_ascii ch) in
  if (128 <=? n)%Z then (if char_is_signed P then n - 256 else n)%Z else n.

(** [inline bool isDigit(const char& ch) { return (ch ^ 48) <= 9; }] *)
Definition isDigit (ch : ascii) : bool :=
  (Z.lxor (char_val ch) 48 <=? 9)%Z.

(** [inline bool isSpace(const char& ch) { return (ch >= 9 && ch <= 13) || ch == 32; }] *)
Definition isSpace (ch : ascii) : bool :=
  ((9 <=? char_val ch)%Z && (char_val ch <=? 13)%Z) || (char_val ch =? 32)%Z.

(** [isalpha] of <cctype> in the "C" locale (the program never calls
    [setlocale]): the 52 ASCII letters.  For a byte of 0x80 and above the
    answer is no; where [char] is signed the argument is then negative, a
    call ISO C leaves undefined and the table lookup of the usual
    libraries answers with no. *)
Definition isalpha (ch : ascii) : bool :=
  ((65 <=? char_val ch)%Z && (char_val ch <=? 90)%Z)
  || ((97 <=? char_val ch)%Z && (char_val ch <=? 122)%Z).

(** The line terminator stored by [read_gate] and [to_stim]. *)
Definition eol : string :=
  if linux_or_cygwin P then String CR (String LF EmptyString)
  else String LF EmptyString.

(** [inline void eatWS(char*& str) { while (isSpace( *str)) str++; }] *)
Fixpoint eatWS (str : string) : string :=
  match str with
  | String ch rest => if isSpace ch then eatWS rest else str
  | EmptyString => str
  end.

(** [inline void eatLine(char*& str) { while ( *str) if ( *str++ == '\n') return; }] *)
Fixpoint eatLine (str : string) : string :=
  match str with
  | String ch rest =>
      if (ch =? NUL)%char then str
      else if (ch =? LF)%char then rest
      else eatLine rest
  | EmptyString => str
  end.

(** The conversion of the [int] [ch - '0'] to [double]. *)
Definition double_of_int (z : Z) : float :=
  if (z <? 0)%Z then PrimFloat.opp (PrimFloat.of_uint63 (Uint63.of_Z (- z)))
  else PrimFloat.of_uint63 (Uint63.of_Z z).

(** The [while (ch != ';')] loop of [toFloat]; [str] is the cursor at [ch].
    At the end of the buffer [ch] is the NUL at [eof], the body runs and
    [*++str] reads beyond it. *)
Fixpoint toFloat_loop (str : string) (n f : float) (is_point : bool)
  : result (float * string) :=
  match str with
  | EmptyString => Err ReadPastEnd
  | String ch rest =>
      if (ch =? ";")%char then Ok ((n * f)%float, str)
      else
        let is_digit := isDigit ch in
        let f := if is_point then (f / 10)%float else f in
        let is_point := if is_point then is_point else (ch =? ".")%char in
        let n := if is_digit
                 then (n * 10 + double_of_int (char_val ch - 48))%float
                 else n in
        toFloat_loop rest n f is_point
  end.

(** [inline double toFloat(char*& str)]: the value and the cursor left at
    the [';']. *)
Definition toFloat (str : string) : result (float * string) :=
  let str := eatWS str in
  if negb (isDigit (deref str)) then Err MalformedVersion
  else toFloat_loop str 0%float 1%float false.

(** [while (isDigit( *str)) { *n++ = *str++; }]: the characters stored
    through [n] and the cursor after them. *)
Fixpoint copy_digits (str : string) : string * string :=
  match str with
  | String ch rest =>
      if isDigit ch
      then let '(n, str') := copy_digits rest in (String ch n, str')
      else (EmptyString, str)
  | EmptyString => (EmptyString, str)
  end.

(** [inline void toQubit(char*& str, char*& n)]: the characters stored
    through [n] and the cursor after the [']']. *)
Definition toQubit (str : string) : result (string * string) :=
  let str := eatWS str in
  if negb (deref str =? "q")%char then Err MalformedQubitRef else
  let str := advance str in
  if negb (deref str =? "[")%char then Err MalformedQubitRef else
  let str := advance str in
  if negb (isDigit (deref str)) then Err MalformedQubitRef else
  let '(n, str) := copy_digits str in
  if negb (deref str =? "]")%char then Err MalformedQubitRef else
  Ok (n, advance str).

(** The [while (ref[c])] loop of [match]: the final [c] when every
    character of [ref] was found in [in], nothing after a mismatch. *)
Fixpoint match_loop (inp ref : string) (c : nat) : option nat :=
  match ref with
  | EmptyString => Some c
  | String r ref' =>
      if (r =? deref inp)%char then match_loop (advance inp) ref' (S c)
      else None
  end.

(** [inline bool match(const char* in, const int size, const char* ref)] *)
Definition match_ (inp : string) (size : nat) (ref : string) : bool :=
  match ref with
  | EmptyString => false
  | String _ _ =>
      match match_loop inp ref 0 with
      | Some c => Nat.eqb size c
      | None => false
      end
  end.

(** ** The gate catalog *)

Definition MAX_GATENAME_LEN : nat := 16.
Definition MAX_QUBIT_DIGITS : nat := 32.
Definition MAX_GATES : nat := 13.

Definition GATE_QASM : list string :=
  [ "i"; "x"; "y"; "z"; "h"; "s"; "sdg"; "cx"; "cy"; "cz";
    "swap"; "iswap"; "measure" ].

Definition GATE_STIM : list string :=
  [ "I"; "X"; "Y"; "Z"; "H"; "S"; "S_DAG"; "CX"; "CY"; "CZ";
    "SWAP"; "ISWAP"; "M" ].

(** The inner loop of [translate_gate]:
    [while (ref[c]) { if (ref[c] != in[c]) break; c++; }], the value of [c]
    when it stops. *)
Fixpoint common_len (ref inp : string) : nat :=
  match ref with
  | EmptyString => O
  | String r ref' =>
      if (r =? deref inp)%char then S (common_len ref' (advance inp))
      else O
  end.

(** The [for (int i = 0; i < MAX_GATES; i++)] loop of [translate_gate] over
    the entries from index [i] on. *)
Fixpoint scan_gates (refs : list string) (i : nat) (inp : string) : option nat :=
  match refs with
  | [] => None
  | ref :: refs' =>
      if Nat.eqb (String.length inp) (common_len ref inp) then Some i
      else scan_gates refs' (S i) inp
  end.

(** [inline int translate_gate(char* in)] *)
Definition translate_gate (inp : string) : result nat :=
  match scan_gates GATE_QASM 0 inp with
  | Some i => Ok i
  | None => Err (UnknownGate inp)
  end.

(** ** Gate statements *)

(** The name loop of [read_gate]: the characters copied to [gate_qasm],
    with [cap] the room left below [MAX_GATENAME_LEN]. *)
Fixpoint read_name (cap : nat) (from : string) : string :=
  match cap with
  | O => EmptyString
  | S cap' =>
      match from with
      | String ch rest =>
          if isalpha ch || (ch =? "_")%char
          then String ch (read_name cap' rest)
          else EmptyString
      | EmptyString => EmptyString
      end
  end.

(** The mnemonic part of [read_gate]: what is stored when the gate is
    [gate_stim] and the last one written was [prev]. *)
Definition emit_mnemonic (gate_stim prev to : string) : string :=
  if match_ gate_stim (String.length gate_stim) prev then to ++ " "
  else
    let to := if negb (deref prev =? NUL)%char then to ++ eol else to in
    to ++ gate_stim ++ " ".

(** The loop [// Read gate inputs] of [read_gate]. *)
Fixpoint read_inputs (fuel : nat) (from to : string) : result (string * string) :=
  if negb (deref from =? ";")%char && negb (match_ from 2 "->") && before_eof from
  then
    match fuel with
    | O => Err OutOfFuel
    | S fuel' =>
        let to := if (deref from =? ",")%char then to ++ " " else to in
        let from := advance from in
        '(n, from) <- toQubit from ;;
        let to := to ++ n in
        let from := eatWS from in
        read_inputs fuel' from to
    end
  else Ok (from, to).

(** [void read_gate(char*& from, char*& to)]: the two cursors and [prev]
    after the statement. *)
Definition read_gate (from to prev : string) : result (string * string * string) :=
  let from := eatWS from in
  let gate_qasm := read_name MAX_GATENAME_LEN from in
  let gatename_len := String.length gate_qasm in
  if Nat.eqb gatename_len MAX_GATENAME_LEN then Err GateNameTooLong else
  let from := drop gatename_len from in
  stim_gate_idx <- translate_gate gate_qasm ;;
  let gate_stim := nth stim_gate_idx GATE_STIM EmptyString in
  let to := emit_mnemonic gate_stim prev to in
  '(from, to) <- read_inputs (String.length from) from to ;;
  let from :=
    if (deref from =? ";")%char then advance from
    else if match_ from 2 "->" then eatLine from
    else from in
  Ok (from, to, gate_stim).

(** ** The translation loop *)

(** The variables of the loop of [to_stim]: the locals [from] and [to] and
    the members [prev] and [max_qubits] of [Circuit]. *)
Record State : Type := mkState {
  s_from : string;
  s_to : string;
  s_prev : string;
  s_max_qubits : string
}.

(** The body of [while (from < eof)] in [to_stim]: [None] is the [break],
    [Some] the state at the end of the iteration. *)
Definition loop_body (s : State) : result (option State) :=
  let from := eatWS (s_from s) in
  if (deref from =? NUL)%char then Ok None
  else if match_ from 8 "OPENQASM" then
    '(version, from) <- toFloat (drop 8 from) ;;
    if negb (PrimFloat.eqb version 2%float) then Err UnsupportedVersion
    else Ok (Some (mkState (eatLine from) (s_to s) (s_prev s) (s_max_qubits s)))
  else if match_ from 4 "qreg" then
    '(qubits, from) <- toQubit (drop 4 from) ;;
    let to := s_to s ++ "#" ++ qubits ++ eol in
    Ok (Some (mkState (eatLine from) to (s_prev s) qubits))
  else if match_ from 4 "creg" then
    Ok (Some (mkState (eatLine from) (s_to s) (s_prev s) (s_max_qubits s)))
  else if match_ from 7 "include" then
    Ok (Some (mkState (eatLine from) (s_to s) (s_prev s) (s_max_qubits s)))
  else if match_ from 4 "gate" then
    Ok (Some (mkState (eatLine from) (s_to s) (s_prev s) (s_max_qubits s)))
  else
    '(from, to, prev) <- read_gate from (s_to s) (s_prev s) ;;
    Ok (Some (mkState from to prev (s_max_qubits s))).

(** The loop [while (from < eof)] of [to_stim]: the text stored in [stim]
    when it ends and the text left in [max_qubits]. *)
Fixpoint to_stim_loop (fuel : nat) (s : State) : result (string * string) :=
  if before_eof (s_from s) then
    match fuel with
    | O => Err OutOfFuel
    | S fuel' =>
        r <- loop_body s ;;
        match r with
        | None => Ok (s_to s, s_max_qubits s)
        | Some s' => to_stim_loop fuel' s'
        end
    end
  else Ok (s_to s, s_max_qubits s).

(** The state [read_qasm] leaves: [from = qasm], [to = stim], and [prev]
    and [max_qubits] empty ([calloc], [*prev = '\0']). *)
Definition initial (qasm : string) : State :=
  mkState qasm EmptyString EmptyString EmptyString.

(** [void to_stim()] up to the [fwrite]: the bytes [stim .. to) that are
    written to the [.stim] file, and the text of [max_qubits] that is
    logged. *)
Definition to_stim (qasm : string) : result (string * string) :=
  '(to, max_qubits) <- to_stim_loop (String.length qasm) (initial qasm) ;;
  Ok (to ++ eol, max_qubits).

(** [stim = (char* ) calloc(size + 1, sizeof(char))] in [read_qasm]: the
    number of bytes the output block can hold. *)
Definition stim_capacity (qasm : string) : nat := String.length qasm + 1.

(** One file of the [main] loop: [read_qasm] then [to_stim].  The [.stim]
    file is opened and written only after the loop of [to_stim], so a run
    that ends in [LOGERROR] leaves no file. *)
Record Run : Type := {
  diagnostic : option error;
  stim_file : option string;
  qubits_logged : option string
}.

Definition run_file (qasm : string) : Run :=
  match to_stim qasm with
  | Ok (stim, max_qubits) =>
      {| diagnostic := None; stim_file := Some stim; qubits_logged := Some max_qubits |}
  | Err e =>
      {| diagnostic := Some e; stim_file := None; qubits_logged := None |}
  end.

End Translator.

(** ** Two concrete platforms *)

Definition linux_x86_64 : Platform :=
  {| linux_or_cygwin := true; char_is_signed := true |}.

Definition windows_x86_64 : Platform :=
  {| linux_or_cygwin := false; char_is_signed := true |}.

(** ** The loop as a relation *)

(** [to_stim_runs P s r]: started in state [s], the loop
    [while (from < eof)] of [to_stim] ends with [r]. *)
Inductive to_stim_runs (P : Platform) : State -> result (string * string) -> Prop :=
| runs_eof s :
    before_eof (s_from s) = false ->
    to_stim_runs P s (Ok (s_to s, s_max_qubits s))
| runs_break s :
    before_eof (s_from s) = true ->
    loop_body P s = Ok None ->
    to_stim_runs P s (Ok (s_to s, s_max_qubits s))
| runs_exit s e :
    before_eof (s_from s) = true ->
    loop_body P s = Err e ->
    to_stim_runs P s (Err e)
| runs_next s s' r :
    before_eof (s_from s) = true ->
    loop_body P s = Ok (Some s') ->
    to_stim_runs P s' r ->
    to_stim_runs P s r.

(** The last stores of [to_stim]: the line terminator after the loop. *)
Definition finish (P : Platform) (r : result (string * string)) : result (string * string) :=
  '(to, max_qubits) <- r ;; Ok (to ++ eol P, max_qubits).

(** ** Vocabulary of the statements *)

Fixpoint all_chars (p : ascii -> bool) (s : string) : bool :=
  match s with
  | EmptyString => true
  | String ch rest => p ch && all_chars p rest
  end.

(** The ten characters ['0'] to ['9']. *)
Definition is_decimal_digit (ch : ascii) : bool :=
  (48 <=? N_of_ascii ch)%N && (N_of_ascii ch <=? 57)%N.

(** A non-empty run of decimal digits: a qubit index or a register size. *)
Definition decimal (ds : string) : bool :=
  before_eof ds && all_chars is_decimal_digit ds.

(** A character of a gate name for [read_gate]. *)
Definition is_name_char (P : Platform) (ch : ascii) : bool :=
  isalpha P ch || (ch =? "_")%char.

(** The text of a line after its first characters: no line feed, no NUL. *)
Definition in_line (ch : ascii) : bool :=
  negb (ch =? LF)%char && negb (ch =? NUL)%char.

Definition nl : string := String LF EmptyString.

Definition qasm_name (i : nat) : string := nth i GATE_QASM EmptyString.
Definition stim_name (i : nat) : string := nth i GATE_STIM EmptyString.

(** The statement [<name> q[<ds>];] on a line of its own. *)
Definition gate_stmt (name ds : string) : string :=
  name ++ " q[" ++ ds ++ "];" ++ nl.

(** The operand tokens of an output line, each after one space. *)
Fixpoint operands (ds : list string) : string :=
  match ds with
  | [] => EmptyString
  | d :: ds' => " " ++ d ++ operands ds'
  end.

(** The statements [name q[d];] for the [d] of [ds], one per line. *)
Fixpoint gate_stmts (name : string) (ds : list string) : string :=
  match ds with
  | [] => EmptyString
  | d :: ds' => gate_stmt name d ++ gate_stmts name ds'
  end.

(** One of the five directive keywords starts at the cursor. *)
Definition at_directive (from : string) : bool :=
  match_ from 8 "OPENQASM" || match_ from 4 "qreg" || match_ from 4 "creg"
  || match_ from 7 "include" || match_ from 4 "gate".

(** The catalog read as the specification words it: [name] is one of the
    thirteen QASM names, character for character. *)
Definition in_catalog (name : string) : bool :=
  existsb (String.eqb name) GATE_QASM.

(** [name] is an initial segment of a catalog name. *)
Definition starts_catalog_name (name : string) : bool :=
  existsb (String.prefix name) GATE_QASM.

(** The value a version text declares, as the specification reads it: the
    rational number written by the decimal literal
    [<digits>] or [<digits>.<digits>]. *)
Fixpoint literal_value (s : string) (after_point : bool) (num : Z) (den : positive)
  : option Q :=
  match s with
  | EmptyString => Some (Qmake num den)
  | String ch rest =>
      if (ch =? ".")%char then
        if after_point then None else literal_value rest true num den
      else if is_decimal_digit ch then
        literal_value rest after_point
          (10 * num + (Z.of_N (N_of_ascii ch) - 48))%Z
          (if after_point then (10 * den)%positive else den)
      else None
  end.

Definition version_value (text : string) : option Q :=
  if is_decimal_digit (deref text) then literal_value text false 0%Z 1%positive
  else None.

(** ** The output file name *)

(** [path.find_last_of(".")] of [std::string]: the last position of the
    character, nothing for [npos]. *)
Fixpoint find_last_of (ch : ascii) (path : string) : option nat :=
  match path with
  | EmptyString => None
  | String c rest =>
      match find_last_of ch rest with
      | Some i => Some (S i)
      | None => if (c =? ch)%char then Some O else None
      end
  end.

(** [path.substr(0, lastidx) + ".stim"] in [to_stim]: the path up to its
    last dot, the whole path when [lastidx] is [npos]. *)
Definition stim_file_path (path : string) : string :=
  match find_last_of "." path with
  | Some lastidx => String.substring 0 lastidx path ++ ".stim"
  | None => path ++ ".stim"
  end.

(** ** Further vocabulary *)

(** A character other than [c]. *)
Definition not_char (c ch : ascii) : bool := negb (ch =? c)%char.

(** A 7-bit character. *)
Definition is_ascii7 (ch : ascii) : bool := (N_of_ascii ch <? 128)%N.

(** The decimal digit of [n < 10] as a character. *)
Definition digit_char (n : nat) : ascii := ascii_of_nat (48 + n).

(** The operand list [q[d1],q[d2],...,q[dk]] of a statement. *)
Fixpoint qubit_list (ds : list string) : string :=
  match ds with
  | [] => EmptyString
  | d :: ds' =>
      "q[" ++ d ++ "]"
      ++ match ds' with
         | [] => EmptyString
         | _ :: _ => "," ++ qubit_list ds'
         end
  end.

(** [ch] occurs in [s]. *)
Fixpoint occurs (ch : ascii) (s : string) : bool :=
  match s with
  | EmptyString => false
  | String c rest => (c =? ch)%char || occurs ch rest
  end.

(** The characters [to_stim] can store: those of the Stim mnemonics, the
    space, the [#] of a header, the line terminator, and whatever [isDigit]
    lets through. *)
Definition stim_char (P : Platform) (ch : ascii) : bool :=
  isDigit P ch || occurs ch "IXYZHS_DAGCWPM #" || (ch =? CR)%char || (ch =? LF)%char.

(** The number of line feeds in a text: the number of lines it ends. *)
Fixpoint line_feeds (s : string) : nat :=
  match s with
  | EmptyString => O
  | String ch rest => (if (ch =? "010")%char then 1 else 0) + line_feeds rest
  end.

(** What [prev] can hold: nothing, or a Stim mnemonic of the catalog. *)
Definition prev_ok (prev : string) : bool :=
  (prev =? "")%string || existsb (String.eqb prev) GATE_STIM.

(** ** The translation in memory *)

(** The scanner reads whatever is under its cursor, and [from < eof]
    compares two addresses.  Here the cursor runs over the memory that
    holds the buffer and, from [eof] on, the bytes [beyond]: the NUL that
    [read_qasm] stores at [qasm[size]] (the zero fill of the last page
    where the file is mapped), then what happens to follow the block.  The
    functions that never use [eof] are the ones above. *)
Section Memory.

Variable P : Platform.
Variable beyond : string.

(** [from < eof], with [beyond] from [eof] on. *)
Definition before_eof_in (from : string) : bool :=
  Nat.ltb (String.length beyond) (String.length from).

(** The loop [// Read gate inputs] of [read_gate]. *)
Fixpoint read_inputs_in (fuel : nat) (from to : string) : result (string * string) :=
  if negb (deref from =? ";")%char && negb (match_ from 2 "->") && before_eof_in from
  then
    match fuel with
    | O => Err OutOfFuel
    | S fuel' =>
        let to := if (deref from =? ",")%char then to ++ " " else to in
        let from := advance from in
        '(n, from) <- toQubit P from ;;
        let to := to ++ n in
        let from := eatWS P from in
        read_inputs_in fuel' from to
    end
  else Ok (from, to).

(** [void read_gate(char*& from, char*& to)] *)
Definition read_gate_in (from to prev : string) : result (string * string * string) :=
  let from := eatWS P from in
  let gate_qasm := read_name P MAX_GATENAME_LEN from in
  let gatename_len := String.length gate_qasm in
  if Nat.eqb gatename_len MAX_GATENAME_LEN then Err GateNameTooLong else
  let from := drop gatename_len from in
  stim_gate_idx <- translate_gate gate_qasm ;;
  let gate_stim := nth stim_gate_idx GATE_STIM EmptyString in
  let to := emit_mnemonic P gate_stim prev to in
  '(from, to) <- read_inputs_in (String.length from) from to ;;
  let from :=
    if (deref from =? ";")%char then advance from
    else if match_ from 2 "->" then eatLine from
    else from in
  Ok (from, to, gate_stim).

(** The body of [while (from < eof)] in [to_stim]. *)
Definition loop_body_in (s : State) : result (option State) :=
  let from := eatWS P (s_from s) in
  if (deref from =? NUL)%char then Ok None
  else if match_ from 8 "OPENQASM" then
    '(version, from) <- toFloat P (drop 8 from) ;;
    if negb (PrimFloat.eqb version 2%float) then Err UnsupportedVersion
    else Ok (Some (mkState (eatLine from) (s_to s) (s_prev s) (s_max_qubits s)))
  else if match_ from 4 "qreg" then
    '(qubits, from) <- toQubit P (drop 4 from) ;;
    let to := s_to s ++ "#" ++ qubits ++ eol P in
    Ok (Some (mkState (eatLine from) to (s_prev s) qubits))
  else if match_ from 4 "creg" then
    Ok (Some (mkState (eatLine from) (s_to s) (s_prev s) (s_max_qubits s)))
  else if match_ from 7 "include" then
    Ok (Some (mkState (eatLine from) (s_to s) (s_prev s) (s_max_qubits s)))
  else if match_ from 4 "gate" then
    Ok (Some (mkState (eatLine from) (s_to s) (s_prev s) (s_max_qubits s)))
  else
    '(from, to, prev) <- read_gate_in from (s_to s) (s_prev s) ;;
    Ok (Some (mkState from to prev (s_max_qubits s))).

(** The loop [while (from < eof)] of [to_stim]. *)
Fixpoint to_stim_loop_in (fuel : nat) (s : State) : result (string * string) :=
  if before_eof_in (s_from s) then
    match fuel with
    | O => Err OutOfFuel
    | S fuel' =>
        r <- loop_body_in s ;;
        match r with
        | None => Ok (s_to s, s_max_qubits s)
        | Some s' => to_stim_loop_in fuel' s'
        end
    end
  else Ok (s_to s, s_max_qubits s).

End Memory.

(** [void to_stim()] up to the [fwrite], on the buffer [qasm] with the
    bytes [beyond] from [eof] on. *)
Definition to_stim_in (P : Platform) (qasm beyond : string) : result (string * string) :=
  '(to, max_qubits) <-
    to_stim_loop_in P beyond (String.length qasm) (initial (qasm ++ beyond)) ;;
  Ok (to ++ eol P, max_qubits).

(** The state of the loop with its read cursor seen in memory: the rest of
    the buffer, then [beyond]. *)
Definition in_memory (beyond : string) (s : State) : State :=
  mkState (s_from s ++ beyond) (s_to s) (s_prev s) (s_max_qubits s).

(** [k] zero bytes. *)
Fixpoint nuls (k : nat) : string :=
  match k with
  | O => EmptyString
  | S k' => String NUL (nuls k')
  end.

(** * Properties *)

(** ** Strings and cursors *)

Lemma append_assoc (a b c : string) : (a ++ b) ++ c = a ++ b ++ c.
Proof.
  induction a as [|ch a IH]; simpl; [reflexivity|].
  now rewrite IH.
Qed.

Lemma append_nil_r (a : string) : a ++ "" = a.
Proof.
  induction a as [|ch a IH]; simpl; [reflexivity|].
  now rewrite IH.
Qed.

Lemma length_append (a b : string) :
  String.length (a ++ b) = String.length a + String.length b.
Proof.
  induction a as [|ch a IH]; simpl; [reflexivity|].
  now rewrite IH.
Qed.

Lemma drop_append (a b : string) : drop (String.length a) (a ++ b) = b.
Proof.
  induction a as [|ch a IH]; simpl; [reflexivity|exact IH].
Qed.

Lemma before_eof_length (s : string) :
  before_eof s = false <-> String.length s = 0.
Proof.
  destruct s; simpl; split; intro H; try reflexivity; discriminate H.
Qed.

Lemma before_eof_append (a b : string) :
  before_eof a = true -> before_eof (a ++ b) = true.
Proof.
  now destruct a.
Qed.

Lemma all_chars_impl (p q : ascii -> bool) (s : string) :
  (forall ch, p ch = true -> q ch = true) ->
  all_chars p s = true -> all_chars q s = true.
Proof.
  intros Hpq. induction s as [|ch s IH]; simpl; [reflexivity|].
  intros [H1 H2]%andb_prop. now rewrite (Hpq _ H1), IH.
Qed.

(** ** Character classes *)

Arguments isDigit : simpl never.
Arguments isSpace : simpl never.
Arguments isalpha : simpl never.
Arguments is_name_char : simpl never.
Arguments is_decimal_digit : simpl never.
Arguments in_line : simpl never.

Ltac each_char ch := destruct ch as [[] [] [] [] [] [] [] []].
Ltac each_platform P := destruct P as [[] []].

Lemma isDigit_spec (P : Platform) (ch : ascii) :
  isDigit P ch
  = is_decimal_digit ch || (char_is_signed P && (128 <=? N_of_ascii ch)%N).
Proof.
  each_platform P; each_char ch; reflexivity.
Qed.

Lemma decimal_isDigit (P : Platform) (ch : ascii) :
  is_decimal_digit ch = true -> isDigit P ch = true.
Proof.
  intro H. now rewrite isDigit_spec, H.
Qed.

Lemma isSpace_spec (P : Platform) (ch : ascii) :
  isSpace P ch
  = ((9 <=? N_of_ascii ch)%N && (N_of_ascii ch <=? 13)%N) || (ch =? " ")%char.
Proof.
  each_platform P; each_char ch; reflexivity.
Qed.

Lemma isalpha_spec (P : Platform) (ch : ascii) :
  isalpha P ch
  = ((65 <=? N_of_ascii ch)%N && (N_of_ascii ch <=? 90)%N)
    || ((97 <=? N_of_ascii ch)%N && (N_of_ascii ch <=? 122)%N).
Proof.
  each_platform P; each_char ch; reflexivity.
Qed.

Lemma name_char_not_space (P : Platform) (ch : ascii) :
  is_name_char P ch = true -> isSpace P ch = false.
Proof.
  unfold is_name_char. rewrite isalpha_spec, isSpace_spec.
  each_char ch; intro H; vm_compute in H; try discriminate H; reflexivity.
Qed.

Lemma name_char_not_NUL (P : Platform) (ch : ascii) :
  is_name_char P ch = true -> (ch =? NUL)%char = false.
Proof.
  unfold is_name_char. rewrite isalpha_spec.
  each_char ch; intro H; vm_compute in H; try discriminate H; reflexivity.
Qed.

(** ** The scanner *)

Section Scanner.

Variable P : Platform.

Lemma eatWS_id (s : string) : isSpace P (deref s) = false -> eatWS P s = s.
Proof.
  destruct s as [|ch s]; simpl; [reflexivity|].
  now intros ->.
Qed.

Lemma eatWS_spaces (ws s : string) :
  all_chars (isSpace P) ws = true -> eatWS P (ws ++ s) = eatWS P s.
Proof.
  induction ws as [|ch ws IH]; simpl; [reflexivity|].
  intros [H1 H2]%andb_prop. rewrite H1. now apply IH.
Qed.

Lemma eatWS_split (s : string) :
  exists ws, s = ws ++ eatWS P s /\ all_chars (isSpace P) ws = true.
Proof.
  induction s as [|ch s [ws [IH1 IH2]]]; simpl.
  - now exists "".
  - destruct (isSpace P ch) eqn:E.
    + exists (String ch ws). simpl. rewrite E, IH2. now rewrite <- IH1.
    + now exists "".
Qed.

Lemma eatWS_length (s : string) : String.length (eatWS P s) <= String.length s.
Proof.
  induction s as [|ch s IH]; simpl; [lia|].
  destruct (isSpace P ch); simpl; lia.
Qed.

Lemma eatWS_head (s : string) : isSpace P (deref (eatWS P s)) = false.
Proof.
  induction s as [|ch s IH]; simpl.
  - each_platform P; reflexivity.
  - destruct (isSpace P ch) eqn:E; [exact IH|exact E].
Qed.

Lemma eatWS_idem (s : string) : eatWS P (eatWS P s) = eatWS P s.
Proof.
  apply eatWS_id, eatWS_head.
Qed.

Lemma eatLine_line (body rest : string) :
  all_chars in_line body = true -> eatLine (body ++ String LF rest) = rest.
Proof.
  induction body as [|ch body IH]; simpl; [reflexivity|].
  unfold in_line at 1. intros [[H1 H2]%andb_prop H3]%andb_prop.
  apply negb_true_iff in H1, H2. rewrite H1, H2. now apply IH.
Qed.

Lemma eatLine_length (s : string) : String.length (eatLine s) <= String.length s.
Proof.
  induction s as [|ch s IH]; simpl; [lia|].
  destruct (ch =? NUL)%char; [simpl; lia|].
  destruct (ch =? LF)%char; simpl; lia.
Qed.

Lemma eatLine_progress (s : string) :
  (deref s =? NUL)%char = false -> String.length (eatLine s) < String.length s.
Proof.
  destruct s as [|ch s]; simpl; [discriminate|].
  intros ->. destruct (ch =? LF)%char; [lia|].
  pose proof (eatLine_length s). lia.
Qed.

Lemma copy_digits_append (ds rest : string) :
  all_chars (isDigit P) ds = true ->
  isDigit P (deref rest) = false ->
  copy_digits P (ds ++ rest) = (ds, rest).
Proof.
  intros Hds Hrest. induction ds as [|ch ds IH]; simpl.
  - destruct rest as [|c rest]; [reflexivity|].
    simpl in *. now rewrite Hrest.
  - simpl in Hds. apply andb_prop in Hds as [H1 H2].
    now rewrite H1, (IH H2).
Qed.

Lemma copy_digits_split (s n r : string) :
  copy_digits P s = (n, r) ->
  s = n ++ r /\ all_chars (isDigit P) n = true /\ isDigit P (deref r) = false.
Proof.
  revert n r. induction s as [|ch s IH]; simpl; intros n r H.
  - injection H as <- <-. now repeat split.
  - destruct (isDigit P ch) eqn:E.
    + destruct (copy_digits P s) as [n' r'] eqn:E'.
      injection H as <- <-.
      destruct (IH _ _ eq_refl) as (-> & H2 & H3).
      simpl. now rewrite E, H2.
    + injection H as <- <-. now repeat split.
Qed.

End Scanner.

(** ** Qubit references *)

Section QubitReference.

Variable P : Platform.

Lemma toQubit_ok (ws ds rest : string) :
  all_chars (isSpace P) ws = true ->
  before_eof ds = true ->
  all_chars (isDigit P) ds = true ->
  toQubit P (ws ++ "q[" ++ ds ++ "]" ++ rest) = Ok (ds, rest).
Proof.
  intros Hws Hne Hds. unfold toQubit.
  rewrite (eatWS_spaces P _ _ Hws), eatWS_id by reflexivity.
  destruct ds as [|d ds]; [discriminate Hne|].
  pose proof Hds as Hd. simpl in Hd. apply andb_prop in Hd as [Hd _].
  cbn [append deref advance Ascii.eqb Bool.eqb negb].
  rewrite Hd. cbn [negb].
  change (String d (ds ++ String "]" rest)) with (String d ds ++ "]" ++ rest).
  rewrite (copy_digits_append P _ _ Hds) by reflexivity.
  reflexivity.
Qed.

Lemma toQubit_split (s n r : string) :
  toQubit P s = Ok (n, r) ->
  exists ws,
    s = ws ++ "q[" ++ n ++ "]" ++ r
    /\ all_chars (isSpace P) ws = true
    /\ before_eof n = true
    /\ all_chars (isDigit P) n = true.
Proof.
  unfold toQubit. destruct (eatWS_split P s) as (ws & Hs & Hws).
  destruct (eatWS P s) as [|c1 t1]; cbn [deref advance]; [discriminate|].
  destruct (c1 =? "q")%char eqn:E1; cbn [negb]; [|discriminate].
  apply Ascii.eqb_eq in E1. subst c1.
  destruct t1 as [|c2 t2]; cbn [deref advance]; [discriminate|].
  destruct (c2 =? "[")%char eqn:E2; cbn [negb]; [|discriminate].
  apply Ascii.eqb_eq in E2. subst c2.
  destruct (isDigit P (deref t2)) eqn:E3; cbn [negb]; [|discriminate].
  destruct (copy_digits P t2) as [n' r'] eqn:E4.
  destruct (copy_digits_split P _ _ _ E4) as (Ht2 & Hn' & _).
  destruct r' as [|c3 t3]; cbn [deref advance]; [discriminate|].
  destruct (c3 =? "]")%char eqn:E5; cbn [negb]; [|discriminate].
  apply Ascii.eqb_eq in E5. subst c3.
  intro H. injection H as <- <-.
  exists ws. repeat split; try assumption.
  - rewrite Hs at 1. now rewrite Ht2.
  - destruct n' as [|d n']; [|reflexivity].
    simpl in Ht2. subst t2. discriminate E3.
Qed.

(** [toQubit] succeeds exactly on optional white space, [q], the bracket,
    a non-empty run of characters that [isDigit] accepts, and the closing
    bracket; it then returns that run and the cursor after the bracket. *)
Lemma toQubit_spec (s n r : string) :
  toQubit P s = Ok (n, r) <->
  exists ws,
    s = ws ++ "q[" ++ n ++ "]" ++ r
    /\ all_chars (isSpace P) ws = true
    /\ before_eof n = true
    /\ all_chars (isDigit P) n = true.
Proof.
  split; [apply toQubit_split|].
  intros (ws & -> & Hws & Hne & Hn). now apply toQubit_ok.
Qed.

(** Every failure of [toQubit] is the [MalformedQubitRef] exit. *)
Lemma toQubit_error (s : string) (e : error) :
  toQubit P s = Err e -> e = MalformedQubitRef.
Proof.
  unfold toQubit.
  repeat match goal with
  | |- context [if ?b then _ else _] => destruct b
  | |- context [let '(_, _) := ?p in _] => destruct p
  end; intro H; first [now injection H | discriminate H].
Qed.

(** [toQubit] either succeeds or exits with [MalformedQubitRef]. *)
Lemma toQubit_outcome (s : string) :
  (exists n r, toQubit P s = Ok (n, r)) \/ toQubit P s = Err MalformedQubitRef.
Proof.
  destruct (toQubit P s) as [[n r]|e] eqn:H.
  - left. now exists n, r.
  - right. now rewrite (toQubit_error _ _ H).
Qed.

(** Where [char] is unsigned, the run between the brackets is a run of
    decimal digits. *)
Lemma toQubit_unsigned_spec (s n r : string) :
  char_is_signed P = false ->
  toQubit P s = Ok (n, r) <->
  exists ws,
    s = ws ++ "q[" ++ n ++ "]" ++ r
    /\ all_chars (isSpace P) ws = true
    /\ decimal n = true.
Proof.
  intro Hu.
  assert (Hd : forall t, all_chars (isDigit P) t = all_chars is_decimal_digit t).
  { induction t as [|ch t IH]; simpl; [reflexivity|].
    now rewrite IH, isDigit_spec, Hu, orb_false_r. }
  rewrite toQubit_spec. unfold decimal.
  split; intros (ws & Hs & Hws & H).
  - exists ws. rewrite <- Hd. destruct H as [H1 H2]. now rewrite H1, H2.
  - exists ws. apply andb_prop in H as [H1 H2]. now rewrite Hd.
Qed.

Lemma toQubit_length (s n r : string) :
  toQubit P s = Ok (n, r) -> String.length r < String.length s.
Proof.
  intros (ws & -> & _)%toQubit_split.
  rewrite length_append. simpl. rewrite length_append. simpl. lia.
Qed.

End QubitReference.

(** ** Literal matching *)

Lemma match_loop_append (ref tail : string) (c : nat) :
  match_loop (ref ++ tail) ref c = Some (c + String.length ref).
Proof.
  revert c. induction ref as [|r ref IH]; intro c; simpl.
  - f_equal. lia.
  - rewrite Ascii.eqb_refl, IH. f_equal. lia.
Qed.

Lemma match_loop_split (inp ref : string) (c n : nat) :
  all_chars (fun ch => negb (ch =? NUL)%char) ref = true ->
  match_loop inp ref c = Some n ->
  n = c + String.length ref /\ exists tail, inp = ref ++ tail.
Proof.
  revert inp c. induction ref as [|r ref IH]; intros inp c Href; simpl.
  - intro H. injection H as <-. split; [lia|]. now exists inp.
  - simpl in Href. apply andb_prop in Href as [Hr Href].
    destruct (r =? deref inp)%char eqn:E; [|discriminate].
    apply Ascii.eqb_eq in E. intro H.
    destruct (IH _ _ Href H) as (-> & tail & Htail).
    split; [lia|]. exists tail.
    destruct inp as [|a inp]; simpl in *.
    + subst r. discriminate Hr.
    + now subst.
Qed.

(** [match(in, size, ref)] with [size] the length of [ref] tests whether the
    characters of [ref], and nothing more, stand at [in]. *)
Lemma match_spec (inp ref : string) :
  before_eof ref = true ->
  all_chars (fun ch => negb (ch =? NUL)%char) ref = true ->
  match_ inp (String.length ref) ref = true <-> exists tail, inp = ref ++ tail.
Proof.
  intros Hne Href. unfold match_.
  destruct ref as [|r ref]; [discriminate Hne|].
  split.
  - destruct (match_loop inp (String r ref) 0) eqn:E; [|discriminate].
    intros _. now destruct (match_loop_split _ _ _ _ Href E).
  - intros [tail ->]. rewrite match_loop_append. apply Nat.eqb_refl.
Qed.

(** ** The gate catalog *)

Lemma common_len_prefix (ref inp : string) :
  all_chars (fun ch => negb (ch =? NUL)%char) ref = true ->
  Nat.eqb (String.length inp) (common_len ref inp) = String.prefix inp ref.
Proof.
  revert inp. induction ref as [|r ref IH]; intros inp Href.
  - destruct inp; reflexivity.
  - simpl in Href. apply andb_prop in Href as [Hr Href].
    apply negb_true_iff in Hr.
    destruct inp as [|a inp]; simpl.
    + now rewrite Hr.
    + destruct (ascii_dec a r) as [->|Hne].
      * rewrite Ascii.eqb_refl. simpl. now apply IH.
      * destruct (r =? a)%char eqn:E; [|reflexivity].
        apply Ascii.eqb_eq in E. now subst.
Qed.

Lemma scan_gates_prefix (refs : list string) (i : nat) (inp : string) :
  forallb (all_chars (fun ch => negb (ch =? NUL)%char)) refs = true ->
  match scan_gates refs i inp with
  | Some j => i <= j < i + List.length refs
              /\ String.prefix inp (nth (j - i) refs EmptyString) = true
  | None => existsb (String.prefix inp) refs = false
  end.
Proof.
  revert i. induction refs as [|ref refs IH]; intros i Hrefs; simpl; [reflexivity|].
  simpl in Hrefs. apply andb_prop in Hrefs as [Href Hrefs].
  rewrite (common_len_prefix _ _ Href).
  destruct (String.prefix inp ref) eqn:E.
  - rewrite Nat.sub_diag. split; [lia|exact E].
  - specialize (IH (S i) Hrefs).
    destruct (scan_gates refs (S i) inp) as [j|]; [|exact IH].
    destruct IH as [Hj Hp]. split; [lia|].
    replace (j - i) with (S (j - S i)) by lia. exact Hp.
Qed.

(** [translate_gate] returns an index as soon as its argument is an initial
    segment of a catalog name, and exits with [UnknownGate] otherwise. *)
Lemma translate_gate_spec (inp : string) :
  match translate_gate inp with
  | Ok i => i < MAX_GATES /\ String.prefix inp (qasm_name i) = true
  | Err e => e = UnknownGate inp /\ starts_catalog_name inp = false
  end.
Proof.
  unfold translate_gate.
  pose proof (scan_gates_prefix GATE_QASM 0 inp eq_refl) as H.
  destruct (scan_gates GATE_QASM 0 inp) as [j|].
  - destruct H as [Hj Hp]. rewrite Nat.sub_0_r in Hp.
    split; [simpl in Hj; unfold MAX_GATES; lia|exact Hp].
  - split; [reflexivity|exact H].
Qed.

Lemma translate_gate_unknown (name : string) :
  starts_catalog_name name = false ->
  translate_gate name = Err (UnknownGate name).
Proof.
  intro H. pose proof (translate_gate_spec name) as Hs.
  destruct (translate_gate name) as [i|e].
  - destruct Hs as [Hi Hp]. unfold starts_catalog_name in H.
    assert (Hin : In (qasm_name i) GATE_QASM) by (apply nth_In; exact Hi).
    assert (Hex : existsb (String.prefix name) GATE_QASM = true)
      by (apply existsb_exists; eauto).
    congruence.
  - now destruct Hs as [-> _].
Qed.

Lemma translate_gate_catalog (i : nat) :
  i < MAX_GATES -> translate_gate (qasm_name i) = Ok i.
Proof.
  intro Hi. unfold MAX_GATES in Hi.
  do 13 (destruct i as [|i]; [reflexivity|]). lia.
Qed.

(** C1.  The claim: the catalog lookup succeeds only on a mnemonic that is
    character for character one of the thirteen QASM names, and a strict
    prefix of a name ([m], [sw], [isw]) raises [UnknownGate].  The code:
    [translate_gate] leaves its inner loop at the first mismatch with
    [break] and then only compares the count [c] with [strlen(in)], so a
    mnemonic that ends where the mismatch occurs is accepted.  [sw] gets
    the index of [swap], [m] that of [measure], [isw] that of [iswap] and
    the empty mnemonic that of [i]; none of them is a catalog name. *)
Theorem translate_gate_accepts_strict_prefix :
  translate_gate "sw" = Ok 10 /\ qasm_name 10 = "swap"
  /\ translate_gate "m" = Ok 12 /\ qasm_name 12 = "measure"
  /\ translate_gate "isw" = Ok 11 /\ qasm_name 11 = "iswap"
  /\ translate_gate "" = Ok 0
  /\ in_catalog "sw" = false /\ in_catalog "m" = false
  /\ in_catalog "isw" = false /\ in_catalog "" = false.
Proof.
  repeat split.
Qed.

(** C8.  The claim: the qubit-reference reader succeeds exactly when a
    decimal digit run stands between the brackets.  The code: [isDigit] is
    [(ch ^ 48) <= 9] on a plain [char]; where [char] is signed, a byte of
    0x80 and above is negative, so is its exclusive or with 48, and the
    test holds.  On such a platform the reader accepts [q[<0x80>]] and
    copies the byte, which is no decimal digit. *)
Theorem toQubit_accepts_high_byte :
  isDigit linux_x86_64 "128"%char = true
  /\ is_decimal_digit "128"%char = false
  /\ toQubit linux_x86_64 (String "q" (String "[" (String "128"%char (String "]" ""))))
     = Ok (String "128"%char "", "").
Proof.
  repeat split.
Qed.

(** C3.  The claim: the bytes stored in the output never outnumber the
    bytes of the input, so that the block [calloc(size + 1)] is never
    overrun.  The code: a statement without operands is accepted, and
    [sdg;] (4 bytes, a block of 5) translates without error to the mnemonic
    [S_DAG], a space and the line terminator: 7 bytes, 8 with the carriage
    return, on every platform. *)
Theorem output_exceeds_input_length (P : Platform) :
  exists out max_qubits,
    to_stim P "sdg;" = Ok (out, max_qubits)
    /\ String.length "sdg;" < String.length out
    /\ stim_capacity "sdg;" < String.length out.
Proof.
  each_platform P; do 2 eexists; (split; [reflexivity|]); split; vm_compute; lia.
Qed.

(** ** Gate statements *)

Section GateStatement.

Variable P : Platform.

Lemma read_name_append (name tail : string) (cap : nat) :
  all_chars (is_name_char P) name = true ->
  is_name_char P (deref tail) = false ->
  String.length name <= cap ->
  read_name P cap (name ++ tail) = name.
Proof.
  intros Hname Htail. revert cap.
  induction name as [|ch name IH]; intros cap Hcap.
  - destruct cap as [|cap]; [reflexivity|].
    destruct tail as [|c tail]; [reflexivity|].
    simpl in *. unfold is_name_char in Htail. now rewrite Htail.
  - destruct cap as [|cap]; [simpl in Hcap; lia|].
    simpl in Hname. apply andb_prop in Hname as [H1 H2].
    simpl. unfold is_name_char in H1. rewrite H1.
    rewrite IH; [reflexivity|assumption|simpl in Hcap; lia].
Qed.

Lemma read_name_split (cap : nat) (s : string) :
  exists tail, s = read_name P cap s ++ tail.
Proof.
  revert s. induction cap as [|cap IH]; intro s; simpl.
  - now exists s.
  - destruct s as [|ch s]; [now exists ""|].
    destruct (isalpha P ch || (ch =? "_")%char).
    + destruct (IH s) as [tail Htail]. exists tail. simpl. now rewrite <- Htail.
    + now exists (String ch s).
Qed.

Lemma read_name_drop (cap : nat) (s : string) :
  String.length (drop (String.length (read_name P cap s)) s)
  = String.length s - String.length (read_name P cap s).
Proof.
  destruct (read_name_split cap s) as [tail Htail].
  rewrite Htail at 2 3. rewrite drop_append, length_append. lia.
Qed.

(** The operand loop never runs out of its budget, moves the cursor
    forward, and stops at [;], at [->] or at the end of the buffer. *)
Lemma read_inputs_length (fuel : nat) (from to : string) :
  String.length from <= fuel ->
  match read_inputs P fuel from to with
  | Ok (from', _) =>
      String.length from' <= String.length from
      /\ ((deref from =? ";")%char = false -> match_ from 2 "->" = false ->
          before_eof from = true -> String.length from' < String.length from)
  | Err e => e = MalformedQubitRef
  end.
Proof.
  revert from to. induction fuel as [|fuel IH]; intros from to Hfuel.
  - destruct from; [|simpl in Hfuel; lia]. simpl. split; [lia|discriminate].
  - cbn [read_inputs].
    destruct (negb (deref from =? ";")%char && negb (match_ from 2 "->")
              && before_eof from) eqn:Hc.
    + apply andb_prop in Hc as [[_ _]%andb_prop Hb].
      destruct from as [|c from]; [discriminate Hb|]. cbn [deref advance].
      destruct (toQubit P from) as [[n r]|e] eqn:Hq; cbn [bind].
      * apply toQubit_length in Hq. pose proof (eatWS_length P r) as Hw.
        specialize (IH (eatWS P r) ((if (c =? ",")%char then to ++ " " else to) ++ n)).
        simpl in Hfuel.
        destruct (read_inputs P fuel (eatWS P r) _) as [[from' to']|e].
        -- destruct IH as [IH _]; [lia|]. simpl. split; [lia|intros; lia].
        -- apply IH. lia.
      * now apply toQubit_error in Hq.
    + split; [lia|]. intros H1 H2 H3. now rewrite H1, H2, H3 in Hc.
Qed.

(** One operand after one space, then the statement terminator. *)
Lemma read_inputs_one (fuel : nat) (ds rest to : string) :
  decimal ds = true ->
  read_inputs P (S fuel) (" q[" ++ ds ++ "];" ++ rest) to
  = Ok (";" ++ rest, to ++ ds).
Proof.
  intros [Hne Hds]%andb_prop.
  apply (all_chars_impl _ (isDigit P)) in Hds; [|apply decimal_isDigit].
  cbn [read_inputs append deref advance].
  change (match_ _ 2 "->") with false.
  cbn [Ascii.eqb Bool.eqb negb andb before_eof].
  change (String "q" (String "[" (ds ++ String "]" (String ";" rest))))
    with ("" ++ "q[" ++ ds ++ "]" ++ (";" ++ rest)).
  rewrite toQubit_ok by (assumption || reflexivity).
  cbn [bind]. rewrite eatWS_id by reflexivity.
  now destruct fuel.
Qed.

End GateStatement.

Arguments match_ : simpl never.

Section Statements.

Variable P : Platform.

Lemma read_inputs_stop (fuel : nat) (from to : string) :
  negb (deref from =? ";")%char && negb (match_ from 2 "->") && before_eof from
  = false ->
  read_inputs P fuel from to = Ok (from, to).
Proof.
  intro H. destruct fuel; cbn [read_inputs]; now rewrite H.
Qed.

(** A statement [<name> q[<ds>];]: the cursor moves past the [;], the
    mnemonic is stored as [emit_mnemonic] says, then the digits, and
    [prev] becomes the Stim name. *)
Lemma read_gate_stmt (name ds rest to prev : string) (i : nat) :
  before_eof name = true ->
  all_chars (is_name_char P) name = true ->
  String.length name < MAX_GATENAME_LEN ->
  translate_gate name = Ok i ->
  decimal ds = true ->
  read_gate P (name ++ " q[" ++ ds ++ "];" ++ rest) to prev
  = Ok (rest, emit_mnemonic P (stim_name i) prev to ++ ds, stim_name i).
Proof.
  intros Hne Hname Hlen Hi Hds. unfold read_gate. cbv zeta.
  rewrite eatWS_id.
  2:{ destruct name as [|ch name]; [discriminate Hne|].
      simpl in Hname. apply andb_prop in Hname as [H1 _].
      exact (name_char_not_space P ch H1). }
  rewrite read_name_append; [|assumption|reflexivity|lia].
  assert (Hlen' : Nat.eqb (String.length name) MAX_GATENAME_LEN = false)
    by (apply Nat.eqb_neq; lia).
  rewrite Hlen'.
  rewrite drop_append, Hi. cbn [bind].
  change (String.length (" q[" ++ ds ++ "];" ++ rest))
    with (S (String.length ("q[" ++ ds ++ "];" ++ rest))).
  rewrite read_inputs_one by assumption.
  reflexivity.
Qed.

Lemma match_arrow_head (from : string) :
  match_ from 2 "->" = true -> (deref from =? NUL)%char = false.
Proof.
  intro H. apply (match_spec from "->") in H as [tail ->]; reflexivity.
Qed.

(** A gate statement moves the cursor forward, and its only exits are the
    three diagnostics of [read_gate], [translate_gate] and [toQubit]. *)
Lemma read_gate_length (from to prev : string) :
  (deref (eatWS P from) =? NUL)%char = false ->
  match read_gate P from to prev with
  | Ok (from', _, _) => String.length from' < String.length from
  | Err e => e <> OutOfFuel /\ e <> ReadPastEnd /\ e <> UnsupportedVersion
             /\ e <> MalformedVersion
  end.
Proof.
  intro Hw. unfold read_gate. cbv zeta.
  pose proof (eatWS_length P from) as Hlw.
  set (w := eatWS P from) in *.
  assert (Hw1 : 1 <= String.length w)
    by (destruct w; [discriminate Hw|simpl; lia]).
  pose proof (read_name_drop P MAX_GATENAME_LEN w) as Hdrop.
  set (name := read_name P MAX_GATENAME_LEN w) in *.
  destruct (Nat.eqb (String.length name) MAX_GATENAME_LEN);
    [repeat split; discriminate|].
  set (from1 := drop (String.length name) w) in *.
  pose proof (translate_gate_spec name) as Ht.
  destruct (translate_gate name) as [i|e]; cbn [bind];
    [|destruct Ht as [-> _]; repeat split; discriminate].
  set (to1 := emit_mnemonic P _ prev to).
  pose proof (read_inputs_length P (String.length from1) from1 to1 (le_n _)) as Hr.
  destruct (negb (deref from1 =? ";")%char && negb (match_ from1 2 "->")
            && before_eof from1) eqn:Hc.
  - destruct (read_inputs P _ from1 to1) as [[from2 to2]|e]; cbn [bind];
      [|subst e; repeat split; discriminate].
    apply andb_prop in Hc as [[H1 H2]%andb_prop H3].
    apply negb_true_iff in H1, H2.
    destruct Hr as [_ Hr]. specialize (Hr H1 H2 H3).
    assert (Hadv : String.length (advance from2) <= String.length from2)
      by (destruct from2; simpl; lia).
    pose proof (eatLine_length from2).
    destruct (deref from2 =? ";")%char; [lia|].
    destruct (match_ from2 2 "->"); lia.
  - rewrite (read_inputs_stop _ _ _ Hc). cbn [bind].
    destruct (deref from1 =? ";")%char eqn:H1.
    + destruct from1; [discriminate H1|]. simpl in *. lia.
    + destruct (match_ from1 2 "->") eqn:H2.
      * pose proof (eatLine_progress from1 (match_arrow_head _ H2)). lia.
      * simpl in Hc. apply before_eof_length in Hc. lia.
Qed.

Lemma toFloat_loop_length (str : string) (n f : float) (is_point : bool) :
  match toFloat_loop P str n f is_point with
  | Ok (_, r) => String.length r <= String.length str
  | Err e => e = ReadPastEnd
  end.
Proof.
  revert n f is_point. induction str as [|ch str IH]; intros n f is_point; simpl.
  - reflexivity.
  - destruct (ch =? ";")%char; [simpl; lia|].
    match goal with |- context [toFloat_loop P str ?a ?b ?c] =>
      specialize (IH a b c); destruct (toFloat_loop P str a b c) as [[v r]|e]
    end; [lia|exact IH].
Qed.

Lemma toFloat_length (str : string) :
  match toFloat P str with
  | Ok (_, r) => String.length r <= String.length str
  | Err e => e = ReadPastEnd \/ e = MalformedVersion
  end.
Proof.
  unfold toFloat. cbv zeta.
  destruct (negb (isDigit P (deref (eatWS P str)))); [now right|].
  pose proof (toFloat_loop_length (eatWS P str) 0%float 1%float false) as H.
  pose proof (eatWS_length P str).
  destruct (toFloat_loop P (eatWS P str) 0 1 false) as [[v r]|e]; [lia|now left].
Qed.

End Statements.

(** ** The loop: progress, termination, and the relation *)

Section Loop.

Variable P : Platform.

(** Every iteration that does not leave the loop moves the read cursor
    forward, and no iteration runs out of budget. *)
Lemma loop_body_progress (s : State) :
  match loop_body P s with
  | Ok (Some s') => String.length (s_from s') < String.length (s_from s)
  | Ok None => True
  | Err e => e <> OutOfFuel
  end.
Proof.
  unfold loop_body. cbv zeta.
  pose proof (eatWS_length P (s_from s)) as Hlw.
  pose proof (eatWS_idem P (s_from s)) as Hidem.
  remember (eatWS P (s_from s)) as w eqn:Ew. clear Ew.
  destruct (deref w =? NUL)%char eqn:Hw; [exact I|].
  destruct (match_ w 8 "OPENQASM") eqn:M1.
  { apply (match_spec w "OPENQASM" eq_refl eq_refl) in M1 as [tail ->].
    change (drop 8 ("OPENQASM" ++ tail)) with tail.
    pose proof (toFloat_length P tail) as Hf.
    destruct (toFloat P tail) as [[v r]|e]; cbn [bind].
    - destruct (negb (PrimFloat.eqb v 2)); [discriminate|].
      pose proof (eatLine_length r). simpl in *. lia.
    - destruct Hf as [-> | ->]; discriminate. }
  destruct (match_ w 4 "qreg") eqn:M2.
  { apply (match_spec w "qreg" eq_refl eq_refl) in M2 as [tail ->].
    change (drop 4 ("qreg" ++ tail)) with tail.
    destruct (toQubit P tail) as [[n r]|e] eqn:Hq; cbn [bind].
    - apply toQubit_length in Hq. pose proof (eatLine_length r).
      simpl in *. lia.
    - apply toQubit_error in Hq. subst e. discriminate. }
  pose proof (eatLine_progress w Hw) as Hline.
  destruct (match_ w 4 "creg"); [simpl; lia|].
  destruct (match_ w 7 "include"); [simpl; lia|].
  destruct (match_ w 4 "gate"); [simpl; lia|].
  pose proof (read_gate_length P w (s_to s) (s_prev s)) as Hg.
  rewrite Hidem in Hg. specialize (Hg Hw).
  destruct (read_gate P w (s_to s) (s_prev s)) as [[[f t] p]|e]; cbn [bind].
  - simpl. lia.
  - apply Hg.
Qed.

(** With a budget of the length of the input the loop always comes to an
    end of its own. *)
Lemma to_stim_loop_total (fuel : nat) (s : State) :
  String.length (s_from s) <= fuel ->
  to_stim_loop P fuel s <> Err OutOfFuel.
Proof.
  revert s. induction fuel as [|fuel IH]; intros s Hfuel; cbn [to_stim_loop].
  - destruct (s_from s); [discriminate|simpl in Hfuel; lia].
  - destruct (before_eof (s_from s)); [|discriminate].
    pose proof (loop_body_progress s) as Hp.
    destruct (loop_body P s) as [[s'|]|e]; cbn [bind].
    + apply IH. lia.
    + discriminate.
    + intro H. injection H as ->. now apply Hp.
Qed.

Lemma to_stim_loop_sound (fuel : nat) (s : State) (r : result (string * string)) :
  to_stim_loop P fuel s = r ->
  r <> Err OutOfFuel ->
  to_stim_runs P s r.
Proof.
  revert s. induction fuel as [|fuel IH]; intros s; cbn [to_stim_loop];
    destruct (before_eof (s_from s)) eqn:Hb; intros <- Hr;
    try (now apply runs_eof); try (now elim Hr).
  destruct (loop_body P s) as [[s'|]|e] eqn:Hs; cbn [bind] in *.
  - eapply runs_next; eauto.
  - now apply runs_break.
  - now apply runs_exit.
Qed.

Lemma to_stim_runs_functional (s : State) (r1 r2 : result (string * string)) :
  to_stim_runs P s r1 -> to_stim_runs P s r2 -> r1 = r2.
Proof.
  intro H1. revert r2.
  induction H1 as [s Hb|s Hb Hs|s e Hb Hs|s s' r Hb Hs H1 IH]; intros r2 H2;
    inversion H2; subst; try congruence.
  apply IH. congruence.
Qed.

Lemma to_stim_runs_loop (s : State) (r : result (string * string)) :
  to_stim_runs P s r ->
  to_stim_loop P (String.length (s_from s)) s = r.
Proof.
  intro H. symmetry. apply (to_stim_runs_functional s); [exact H|].
  eapply to_stim_loop_sound; [reflexivity|].
  apply to_stim_loop_total. lia.
Qed.

Lemma to_stim_finish (qasm : string) :
  to_stim P qasm
  = finish P (to_stim_loop P (String.length qasm) (initial qasm)).
Proof.
  reflexivity.
Qed.

(** The result of [to_stim] is that of the loop started on the whole
    buffer, followed by the last line terminator. *)
Lemma translates_to_stim (qasm : string) (r : result (string * string)) :
  (exists r0, to_stim_runs P (initial qasm) r0 /\ r = finish P r0)
  <-> to_stim P qasm = r.
Proof.
  rewrite to_stim_finish. split.
  - intros (r0 & H & ->). apply to_stim_runs_loop in H. simpl in H. now rewrite H.
  - intros <-. eexists. split; [|reflexivity].
    eapply to_stim_loop_sound; [reflexivity|].
    apply to_stim_loop_total. simpl. lia.
Qed.

Lemma to_stim_total (qasm : string) : to_stim P qasm <> Err OutOfFuel.
Proof.
  rewrite to_stim_finish.
  pose proof (to_stim_loop_total (String.length qasm) (initial qasm) (le_n _)) as H.
  destruct (to_stim_loop P _ _) as [[to mq]|e]; [discriminate|].
  simpl. congruence.
Qed.

(** From the relation to [to_stim]. *)
Lemma to_stim_of_runs (qasm to max_qubits : string) :
  to_stim_runs P (initial qasm) (Ok (to, max_qubits)) ->
  to_stim P qasm = Ok (to ++ eol P, max_qubits).
Proof.
  intro H. apply translates_to_stim. eexists. split; [exact H|reflexivity].
Qed.

End Loop.

(** ** Iterations on statements and directive lines *)

Section Iterations.

Variable P : Platform.

Lemma emit_mnemonic_first (gate_stim to : string) :
  emit_mnemonic P gate_stim "" to = to ++ gate_stim ++ " ".
Proof.
  reflexivity.
Qed.

Lemma emit_mnemonic_same (i : nat) (to : string) :
  i < MAX_GATES ->
  emit_mnemonic P (stim_name i) (stim_name i) to = to ++ " ".
Proof.
  intro Hi. unfold MAX_GATES in Hi.
  do 13 (destruct i as [|i]; [reflexivity|]). lia.
Qed.

Lemma emit_mnemonic_switch (i j : nat) (to : string) :
  i < MAX_GATES -> j < MAX_GATES -> i <> j ->
  emit_mnemonic P (stim_name j) (stim_name i) to
  = (to ++ eol P) ++ stim_name j ++ " ".
Proof.
  intros Hi Hj Hne. unfold MAX_GATES in Hi, Hj.
  do 13 (destruct i as [|i];
         [do 13 (destruct j as [|j]; [first [reflexivity|now elim Hne]|]); lia|]).
  lia.
Qed.

Lemma catalog_name_shape (i : nat) :
  i < MAX_GATES ->
  before_eof (qasm_name i) = true
  /\ all_chars (is_name_char P) (qasm_name i) = true
  /\ String.length (qasm_name i) < MAX_GATENAME_LEN
  /\ forall tail, at_directive (qasm_name i ++ String " " tail) = false.
Proof.
  intro Hi. unfold MAX_GATES in Hi.
  do 13 (destruct i as [|i];
         [repeat split; unfold MAX_GATENAME_LEN; simpl; lia|]).
  lia.
Qed.

Lemma at_directive_false (from : string) :
  at_directive from = false ->
  match_ from 8 "OPENQASM" = false /\ match_ from 4 "qreg" = false
  /\ match_ from 4 "creg" = false /\ match_ from 7 "include" = false
  /\ match_ from 4 "gate" = false.
Proof.
  unfold at_directive. intro H.
  repeat (apply orb_false_iff in H as [H ?]). now repeat split.
Qed.

(** The iteration on a statement [<name> q[<ds>];]. *)
Lemma loop_body_gate (ws name ds rest to prev max_qubits : string) (i : nat) :
  all_chars (isSpace P) ws = true ->
  before_eof name = true ->
  all_chars (is_name_char P) name = true ->
  String.length name < MAX_GATENAME_LEN ->
  translate_gate name = Ok i ->
  at_directive (name ++ " q[" ++ ds ++ "];" ++ rest) = false ->
  decimal ds = true ->
  loop_body P (mkState (ws ++ name ++ " q[" ++ ds ++ "];" ++ rest) to prev max_qubits)
  = Ok (Some (mkState rest (emit_mnemonic P (stim_name i) prev to ++ ds)
                      (stim_name i) max_qubits)).
Proof.
  intros Hws Hne Hname Hlen Hi Hdir Hds.
  unfold loop_body. cbv zeta. cbn [s_from s_to s_prev s_max_qubits].
  rewrite (eatWS_spaces P _ _ Hws).
  set (stmt := name ++ " q[" ++ ds ++ "];" ++ rest) in *.
  assert (Hch : is_name_char P (deref stmt) = true).
  { destruct name as [|ch name]; [discriminate Hne|].
    simpl in Hname. now apply andb_prop in Hname as [Hch _]. }
  rewrite eatWS_id by exact (name_char_not_space P _ Hch).
  rewrite (name_char_not_NUL P _ Hch).
  destruct (at_directive_false _ Hdir) as (-> & -> & -> & -> & ->).
  unfold stmt.
  now rewrite (read_gate_stmt P _ _ _ _ _ _ Hne Hname Hlen Hi Hds).
Qed.

(** The iteration on a statement of a catalog gate. *)
Lemma loop_body_catalog_gate (i : nat) (ws ds rest to prev max_qubits : string) :
  i < MAX_GATES ->
  all_chars (isSpace P) ws = true ->
  decimal ds = true ->
  loop_body P (mkState (ws ++ qasm_name i ++ " q[" ++ ds ++ "];" ++ rest)
                       to prev max_qubits)
  = Ok (Some (mkState rest (emit_mnemonic P (stim_name i) prev to ++ ds)
                      (stim_name i) max_qubits)).
Proof.
  intros Hi Hws Hds.
  destruct (catalog_name_shape i Hi) as (H1 & H2 & H3 & H4).
  apply loop_body_gate; try assumption.
  - now apply translate_gate_catalog.
  - apply H4.
Qed.

(** The iteration on a [creg], [include] or [gate] line: the line is
    dropped, and neither the output nor [prev] nor [max_qubits] changes. *)
Lemma loop_body_skipped_line (ws kw body rest to prev max_qubits : string) :
  all_chars (isSpace P) ws = true ->
  In kw ["creg"; "include"; "gate"] ->
  all_chars in_line body = true ->
  loop_body P (mkState (ws ++ kw ++ body ++ nl ++ rest) to prev max_qubits)
  = Ok (Some (mkState rest to prev max_qubits)).
Proof.
  intros Hws Hkw Hbody.
  assert (Hline : eatLine (body ++ nl ++ rest) = rest)
    by (apply eatLine_line; exact Hbody).
  simpl in Hkw.
  destruct Hkw as [<-|[<-|[<-|[]]]];
    unfold loop_body; cbv zeta; cbn [s_from s_to s_prev s_max_qubits];
    rewrite (eatWS_spaces P _ _ Hws), eatWS_id by reflexivity;
    cbn -[eatLine nl]; cbn [eatLine append Ascii.eqb Bool.eqb NUL LF];
    now rewrite Hline.
Qed.

Lemma loop_body_blank (ws to prev max_qubits : string) :
  all_chars (isSpace P) ws = true ->
  loop_body P (mkState ws to prev max_qubits) = Ok None.
Proof.
  intro Hws. unfold loop_body. cbv zeta. cbn [s_from].
  rewrite <- (append_nil_r ws), (eatWS_spaces P _ _ Hws). reflexivity.
Qed.

End Iterations.

(** ** Run compaction *)

Section Compaction.

Variable P : Platform.

Lemma gate_stmt_append (name ds tail : string) :
  gate_stmt name ds ++ tail = name ++ " q[" ++ ds ++ "];" ++ nl ++ tail.
Proof.
  unfold gate_stmt. now rewrite !append_assoc.
Qed.

Lemma isSpace_nl : all_chars (isSpace P) nl = true.
Proof.
  reflexivity.
Qed.

(** Once the mnemonic of gate [i] is the last one written, each further
    statement of that gate only adds a space and its operand. *)
Lemma runs_fused (i : nat) (ds : list string) (to max_qubits : string) :
  i < MAX_GATES ->
  forallb decimal ds = true ->
  to_stim_runs P
    (mkState (nl ++ gate_stmts (qasm_name i) ds) to (stim_name i) max_qubits)
    (Ok (to ++ operands ds, max_qubits)).
Proof.
  intros Hi. revert to. induction ds as [|d ds IH]; intros to Hds.
  - cbn [gate_stmts operands]. rewrite !append_nil_r.
    apply (runs_break P (mkState nl to (stim_name i) max_qubits));
      [reflexivity|].
    apply loop_body_blank, isSpace_nl.
  - cbn [forallb] in Hds. apply andb_prop in Hds as [Hd Hds].
    cbn [gate_stmts operands]. rewrite gate_stmt_append.
    eapply runs_next;
      [reflexivity|apply loop_body_catalog_gate; [exact Hi|apply isSpace_nl|exact Hd]|].
    rewrite emit_mnemonic_same by exact Hi.
    replace (to ++ " " ++ d ++ operands ds)
      with (((to ++ " ") ++ d) ++ operands ds)
      by (now rewrite !append_assoc).
    now apply IH.
Qed.

(** The statements of gate [i] from any state of the loop. *)
Lemma runs_gate_stmts (i : nat) (d : string) (ds : list string)
  (to prev max_qubits : string) :
  i < MAX_GATES ->
  forallb decimal (d :: ds) = true ->
  to_stim_runs P
    (mkState (gate_stmts (qasm_name i) (d :: ds)) to prev max_qubits)
    (Ok ((emit_mnemonic P (stim_name i) prev to ++ d) ++ operands ds, max_qubits)).
Proof.
  intros Hi Hds. cbn [forallb] in Hds. apply andb_prop in Hds as [Hd Hds].
  cbn [gate_stmts]. rewrite gate_stmt_append.
  eapply runs_next;
    [apply before_eof_append, (catalog_name_shape P i Hi)
    |apply (loop_body_catalog_gate P i ""); [exact Hi|reflexivity|exact Hd]|].
  now apply runs_fused.
Qed.

Lemma eol_bytes :
  eol P = if linux_or_cygwin P then String "013" (String "010" "") else String "010" "".
Proof.
  reflexivity.
Qed.

End Compaction.

Lemma line_feeds_append (a b : string) :
  line_feeds (a ++ b) = line_feeds a + line_feeds b.
Proof.
  induction a as [|ch a IH]; [reflexivity|].
  cbn [append line_feeds]. rewrite IH. lia.
Qed.

Lemma line_feeds_decimal (d : string) :
  all_chars is_decimal_digit d = true -> line_feeds d = 0.
Proof.
  induction d as [|ch d IH]; [reflexivity|].
  cbn [all_chars line_feeds]. intros [H1 H2]%andb_prop. rewrite (IH H2).
  each_char ch; vm_compute in H1; try discriminate H1; reflexivity.
Qed.

Lemma line_feeds_operands (ds : list string) :
  forallb decimal ds = true -> line_feeds (operands ds) = 0.
Proof.
  induction ds as [|d ds IH]; [reflexivity|].
  cbn [forallb operands]. intros [[_ Hd]%andb_prop Hds]%andb_prop.
  cbn [append line_feeds]. rewrite line_feeds_append.
  now rewrite (line_feeds_decimal d Hd), (IH Hds).
Qed.

Lemma line_feeds_stim_name (i : nat) : line_feeds (stim_name i) = 0.
Proof.
  do 13 (destruct i as [|i]; [reflexivity|]). now destruct i.
Qed.

(** C4.  [k >= 1] consecutive statements of one catalog gate, each with one
    qubit operand and on a line of its own, translate to one output line:
    the Stim mnemonic once, then the [k] operand tokens, each after one
    space, then the line terminator (a line feed, after a carriage return
    in the Linux and Cygwin build), and no line feed before it.  Two
    consecutive statements of different catalog gates translate to two
    such lines, whatever their operands.  The same holds in the middle of
    a file: after a statement of the same gate the [k] statements only add
    their operands to its line, after a statement of another gate they end
    its line and start one of their own. *)
Theorem run_compaction (P : Platform) (i j : nat) (ds : list string) (a b : string) :
  i < MAX_GATES -> j < MAX_GATES -> i <> j ->
  ds <> [] -> forallb decimal ds = true ->
  decimal a = true -> decimal b = true ->
  to_stim P (gate_stmts (qasm_name i) ds)
  = Ok (stim_name i ++ operands ds ++ (if linux_or_cygwin P then String "013" (String "010" "") else String "010" ""), "")
  /\ line_feeds (stim_name i ++ operands ds) = 0
  /\ to_stim P (gate_stmt (qasm_name i) a ++ gate_stmt (qasm_name j) b)
     = Ok ((stim_name i ++ " " ++ a) ++ (if linux_or_cygwin P then String "013" (String "010" "") else String "010" "")
           ++ (stim_name j ++ " " ++ b) ++ (if linux_or_cygwin P then String "013" (String "010" "") else String "010" ""), "")
  /\ line_feeds (stim_name i ++ " " ++ a) = 0
  /\ line_feeds (stim_name j ++ " " ++ b) = 0
  /\ (forall to max_qubits,
        to_stim_runs P
          (mkState (gate_stmts (qasm_name i) ds) to (stim_name i) max_qubits)
          (Ok (to ++ operands ds, max_qubits)))
  /\ (forall to max_qubits,
        to_stim_runs P
          (mkState (gate_stmts (qasm_name i) ds) to (stim_name j) max_qubits)
          (Ok (to ++ (if linux_or_cygwin P then String "013" (String "010" "") else String "010" "") ++ stim_name i ++ operands ds, max_qubits))).
Proof.
  intros Hi Hj Hne Hds Hdec Ha Hb.
  rewrite <- !(eol_bytes P).
  destruct ds as [|d ds]; [now elim Hds|].
  pose proof Hdec as Hdec'.
  cbn [forallb] in Hdec'. apply andb_prop in Hdec' as [Hd Hdec'].
  split; [|split; [|split; [|split; [|split; [|split]]]]].
  - replace (stim_name i ++ operands (d :: ds) ++ eol P)
      with (((emit_mnemonic P (stim_name i) "" "" ++ d) ++ operands ds) ++ eol P)
      by (rewrite emit_mnemonic_first; cbn [operands append];
          now rewrite !append_assoc).
    apply to_stim_of_runs. now apply runs_gate_stmts.
  - rewrite line_feeds_append, line_feeds_stim_name.
    now rewrite (line_feeds_operands _ Hdec).
  - replace ((stim_name i ++ " " ++ a) ++ eol P ++ (stim_name j ++ " " ++ b) ++ eol P)
      with (((((("" ++ stim_name i ++ " ") ++ a) ++ eol P) ++ stim_name j ++ " ") ++ b)
            ++ eol P)
      by (cbn [append]; now rewrite !append_assoc).
    apply to_stim_of_runs. unfold initial.
    rewrite gate_stmt_append.
    eapply runs_next;
      [apply before_eof_append, (catalog_name_shape P i Hi)
      |apply (loop_body_catalog_gate P i ""); [exact Hi|reflexivity|exact Ha]|].
    rewrite emit_mnemonic_first. unfold gate_stmt.
    eapply runs_next;
      [reflexivity
      |apply (loop_body_catalog_gate P j nl); [exact Hj|reflexivity|exact Hb]|].
    rewrite emit_mnemonic_switch by assumption.
    apply (runs_break P (mkState nl _ _ _)); [reflexivity|].
    now apply loop_body_blank.
  - apply andb_prop in Ha as [_ Ha].
    rewrite line_feeds_append, line_feeds_stim_name. cbn [append line_feeds].
    now rewrite (line_feeds_decimal a Ha).
  - apply andb_prop in Hb as [_ Hb].
    rewrite line_feeds_append, line_feeds_stim_name. cbn [append line_feeds].
    now rewrite (line_feeds_decimal b Hb).
  - intros to max_qubits.
    replace (to ++ operands (d :: ds))
      with ((emit_mnemonic P (stim_name i) (stim_name i) to ++ d) ++ operands ds)
      by (rewrite emit_mnemonic_same by exact Hi; cbn [operands append];
          now rewrite !append_assoc).
    now apply runs_gate_stmts.
  - intros to max_qubits.
    replace (to ++ eol P ++ stim_name i ++ operands (d :: ds))
      with ((emit_mnemonic P (stim_name i) (stim_name j) to ++ d) ++ operands ds)
      by (rewrite emit_mnemonic_switch by auto; cbn [operands append];
          now rewrite !append_assoc).
    now apply runs_gate_stmts.
Qed.

Lemma run_compaction_witness :
  to_stim linux_x86_64 (gate_stmts (qasm_name 4) ["0"; "1"; "2"])
  = Ok ("H 0 1 2" ++ String "013" (String "010" ""), "")
  /\ line_feeds ("H 0 1 2") = 0
  /\ to_stim linux_x86_64 (gate_stmt (qasm_name 4) "0" ++ gate_stmt (qasm_name 1) "0")
     = Ok ("H 0" ++ String "013" (String "010" "")
           ++ "X 0" ++ String "013" (String "010" ""), "")
  /\ line_feeds "H 0" = 0
  /\ line_feeds "X 0" = 0
  /\ (forall to max_qubits,
        to_stim_runs linux_x86_64
          (mkState (gate_stmts (qasm_name 4) ["0"; "1"; "2"]) to (stim_name 4) max_qubits)
          (Ok (to ++ " 0 1 2", max_qubits)))
  /\ (forall to max_qubits,
        to_stim_runs linux_x86_64
          (mkState (gate_stmts (qasm_name 4) ["0"; "1"; "2"]) to (stim_name 1) max_qubits)
          (Ok (to ++ String "013" (String "010" "") ++ "H 0 1 2", max_qubits))).
Proof.
  apply (run_compaction linux_x86_64 4 1 ["0"; "1"; "2"] "0" "0");
    first [reflexivity | discriminate | unfold MAX_GATES; lia].
Defined.

(** ** Directive lines and the last mnemonic *)

(** C2, the claim at a concrete input: a [creg] line between two [x]
    statements leaves [prev] at [X], and the second statement is fused
    with the first; with a [qreg] line between them the second statement
    does not start a line with its mnemonic either. *)
Lemma directive_line_does_not_reset_prev :
  loop_body windows_x86_64
    (mkState ("creg c[1];" ++ nl ++ "x q[1];") "X 0" "X" "")
  = Ok (Some (mkState "x q[1];" "X 0" "X" ""))
  /\ to_stim windows_x86_64 ("x q[0];" ++ nl ++ "creg c[1];" ++ nl ++ "x q[1];")
     = Ok ("X 0 1" ++ nl, "")
  /\ to_stim windows_x86_64 ("x q[0];" ++ nl ++ "qreg q[5];" ++ nl ++ "x q[1];")
     = Ok ("X 0#5" ++ nl ++ " 1" ++ nl, "5").
Proof.
  repeat split.
Qed.

(** C2, amended.  No directive line resets the last mnemonic: the
    iteration on a [creg], [include] or [gate] line changes neither the
    output nor [prev], and two statements of one catalog gate separated by
    such a line are fused on one output line, the mnemonic written once. *)
Theorem directive_line_keeps_prev
  (P : Platform) (i : nat) (kw body a b : string) :
  i < MAX_GATES ->
  In kw ["creg"; "include"; "gate"] ->
  all_chars in_line body = true ->
  decimal a = true -> decimal b = true ->
  (forall rest to prev max_qubits,
     loop_body P (mkState (kw ++ body ++ nl ++ rest) to prev max_qubits)
     = Ok (Some (mkState rest to prev max_qubits)))
  /\ to_stim P (gate_stmt (qasm_name i) a ++ kw ++ body ++ nl
                ++ gate_stmt (qasm_name i) b)
     = Ok (stim_name i ++ " " ++ a ++ " " ++ b ++ eol P, "").
Proof.
  intros Hi Hkw Hbody Ha Hb. split.
  - intros rest to prev max_qubits.
    now apply (loop_body_skipped_line P "").
  - replace (stim_name i ++ " " ++ a ++ " " ++ b ++ eol P)
      with ((((("" ++ stim_name i ++ " ") ++ a) ++ " ") ++ b) ++ eol P)
      by (cbn [append]; now rewrite !append_assoc).
    apply to_stim_of_runs. unfold initial.
    rewrite gate_stmt_append.
    eapply runs_next;
      [apply before_eof_append, (catalog_name_shape P i Hi)
      |apply (loop_body_catalog_gate P i ""); [exact Hi|reflexivity|exact Ha]|].
    rewrite emit_mnemonic_first.
    eapply runs_next;
      [reflexivity
      |apply (loop_body_skipped_line P nl); [reflexivity|exact Hkw|exact Hbody]|].
    unfold gate_stmt.
    eapply runs_next;
      [apply before_eof_append, (catalog_name_shape P i Hi)
      |apply (loop_body_catalog_gate P i ""); [exact Hi|reflexivity|exact Hb]|].
    rewrite emit_mnemonic_same by exact Hi.
    apply (runs_break P (mkState nl _ _ _)); [reflexivity|].
    now apply loop_body_blank.
Qed.

Lemma directive_line_keeps_prev_witness :
  (forall rest to prev max_qubits,
     loop_body linux_x86_64 (mkState ("creg" ++ " c[2];" ++ nl ++ rest) to prev max_qubits)
     = Ok (Some (mkState rest to prev max_qubits)))
  /\ to_stim linux_x86_64 (gate_stmt (qasm_name 1) "0" ++ "creg" ++ " c[2];" ++ nl
                           ++ gate_stmt (qasm_name 1) "1")
     = Ok (stim_name 1 ++ " " ++ "0" ++ " " ++ "1" ++ eol linux_x86_64, "").
Proof.
  apply (directive_line_keeps_prev linux_x86_64 1 "creg" " c[2];" "0" "1");
    first [reflexivity | unfold MAX_GATES; lia | simpl; tauto].
Defined.

(** ** The output only grows *)

Section AppendOnly.

Variable P : Platform.

Lemma read_inputs_appends (fuel : nat) (from to : string) :
  match read_inputs P fuel from to with
  | Ok (_, to') => exists x, to' = to ++ x
  | Err _ => True
  end.
Proof.
  revert from to. induction fuel as [|fuel IH]; intros from to; cbn [read_inputs];
    destruct (negb (deref from =? ";")%char && negb (match_ from 2 "->")
              && before_eof from);
    try exact I; try (exists ""; now rewrite append_nil_r).
  destruct (toQubit P (advance from)) as [[n r]|e]; cbn [bind]; [|exact I].
  match goal with |- context [read_inputs P fuel ?f ?t] =>
    specialize (IH f t); destruct (read_inputs P fuel f t) as [[f' t']|e]
  end; [|exact I].
  destruct IH as [x ->].
  destruct (deref from =? ",")%char.
  - exists (" " ++ n ++ x). now rewrite !append_assoc.
  - exists (n ++ x). now rewrite !append_assoc.
Qed.

Lemma emit_mnemonic_appends (gate_stim prev to : string) :
  exists x, emit_mnemonic P gate_stim prev to = to ++ x.
Proof.
  unfold emit_mnemonic.
  destruct (match_ gate_stim (String.length gate_stim) prev); [now exists " "|].
  destruct (negb (deref prev =? NUL)%char).
  - exists (eol P ++ gate_stim ++ " "). now rewrite !append_assoc.
  - now exists (gate_stim ++ " ").
Qed.

Lemma read_gate_appends (from to prev : string) :
  match read_gate P from to prev with
  | Ok (_, to', _) => exists x, to' = to ++ x
  | Err _ => True
  end.
Proof.
  unfold read_gate. cbv zeta.
  destruct (Nat.eqb _ MAX_GATENAME_LEN); [exact I|].
  destruct (translate_gate _) as [i|e]; cbn [bind]; [|exact I].
  destruct (emit_mnemonic_appends (nth i GATE_STIM "") prev to) as [x ->].
  match goal with |- context [read_inputs P ?n ?f ?t] =>
    pose proof (read_inputs_appends n f t) as H;
    destruct (read_inputs P n f t) as [[f' t']|e]
  end; cbn [bind]; [|exact I].
  destruct H as [y ->]. exists (x ++ y). now rewrite append_assoc.
Qed.

Lemma loop_body_appends (s : State) :
  match loop_body P s with
  | Ok (Some s') => exists x, s_to s' = s_to s ++ x
  | _ => True
  end.
Proof.
  unfold loop_body. cbv zeta.
  repeat match goal with
  | |- context [if ?b then _ else _] => destruct b
  | |- context [bind (toFloat P ?a) _] => destruct (toFloat P a) as [[? ?]|?]; cbn [bind]
  | |- context [bind (toQubit P ?a) _] => destruct (toQubit P a) as [[? ?]|?]; cbn [bind]
  end; try exact I; cbn [s_to];
  try (exists ""; now rewrite append_nil_r); try (eexists; reflexivity).
  pose proof (read_gate_appends (eatWS P (s_from s)) (s_to s) (s_prev s)) as H.
  destruct (read_gate P _ _ _) as [[[f t] p]|e]; cbn [bind]; [|exact I].
  exact H.
Qed.

(** What is in the output at some iteration is still there, at the same
    place, when the loop ends. *)
Lemma to_stim_runs_appends (s : State) (out max_qubits : string) :
  to_stim_runs P s (Ok (out, max_qubits)) -> exists x, out = s_to s ++ x.
Proof.
  intro H. remember (Ok (out, max_qubits)) as r eqn:Er.
  induction H as [s Hb|s Hb Hs|s e Hb Hs|s s' r Hb Hs H IH].
  - injection Er as <- <-. exists "". now rewrite append_nil_r.
  - injection Er as <- <-. exists "". now rewrite append_nil_r.
  - discriminate Er.
  - destruct (IH Er) as [x ->].
    pose proof (loop_body_appends s) as Ha. rewrite Hs in Ha.
    destruct Ha as [y ->]. exists (y ++ x). now rewrite append_assoc.
Qed.

End AppendOnly.

(** ** The [qreg] directive *)

(** At a directive [qreg q[<ds>]] the iteration appends [#], the digits as
    they stand in the source and the line terminator to the output written
    so far, keeps [prev], records the digits in [max_qubits] and drops the
    rest of the line; when the loop ends these bytes are still there,
    right after what had been written before the directive and before
    everything written after it. *)
Lemma qreg_header_in_place
  (P : Platform) (ws0 ws ds tail to prev max_qubits : string) :
  all_chars (isSpace P) ws0 = true ->
  all_chars (isSpace P) ws = true ->
  decimal ds = true ->
  String.length ds <= MAX_QUBIT_DIGITS ->
  loop_body P (mkState (ws0 ++ "qreg" ++ ws ++ "q[" ++ ds ++ "]" ++ tail)
                       to prev max_qubits)
  = Ok (Some (mkState (eatLine tail) (to ++ "#" ++ ds ++ eol P) prev ds))
  /\ forall out max_qubits',
       to_stim_runs P
         (mkState (ws0 ++ "qreg" ++ ws ++ "q[" ++ ds ++ "]" ++ tail)
                  to prev max_qubits)
         (Ok (out, max_qubits')) ->
       exists later, out = to ++ "#" ++ ds ++ eol P ++ later.
Proof.
  intros Hws0 Hws [Hne Hds]%andb_prop _.
  apply (all_chars_impl _ (isDigit P)) in Hds; [|apply decimal_isDigit].
  assert (Hstep :
    loop_body P (mkState (ws0 ++ "qreg" ++ ws ++ "q[" ++ ds ++ "]" ++ tail)
                         to prev max_qubits)
    = Ok (Some (mkState (eatLine tail) (to ++ "#" ++ ds ++ eol P) prev ds))).
  { unfold loop_body. cbv zeta. cbn [s_from s_to s_prev s_max_qubits].
    rewrite (eatWS_spaces P _ _ Hws0), eatWS_id by reflexivity.
    change (drop 4 ("qreg" ++ ws ++ "q[" ++ ds ++ "]" ++ tail))
      with (ws ++ "q[" ++ ds ++ "]" ++ tail).
    change (match_ ("qreg" ++ _) 8 "OPENQASM") with false.
    change (match_ ("qreg" ++ ws ++ "q[" ++ ds ++ "]" ++ tail) 4 "qreg") with true.
    cbn [append deref Ascii.eqb Bool.eqb NUL].
    change (String "q" (String "[" (ds ++ String "]" tail)))
      with ("q[" ++ ds ++ "]" ++ tail).
    now rewrite (toQubit_ok P ws ds tail Hws Hne Hds). }
  split; [exact Hstep|].
  intros out max_qubits' Hrun.
  inversion Hrun as [s Hb|s Hb Hs|s e Hb Hs|s s' r Hb Hs Hnext]; subst.
  - exfalso. cbn [s_from] in Hb.
    destruct ws0; discriminate Hb.
  - rewrite Hstep in Hs. discriminate Hs.
  - rewrite Hstep in Hs. injection Hs as <-.
    apply to_stim_runs_appends in Hnext as [x ->]. cbn [s_to].
    exists x. rewrite append_assoc. cbn [append]. now rewrite append_assoc.
Qed.

(** C5.  The claim: a [qreg] directive puts a header line, [#] and the
    count, into the output where the directive stands.  The code: the
    [qreg] branch stores [#], the digits and the line terminator at once,
    but the line of the gate statement before it has not been ended:
    [read_gate] ends a line only when the next mnemonic starts.  So after
    a statement of a catalog gate the header is glued to the gate line
    (for [h q[0];] then [qreg q[5];] the output is [H 0#5] and an empty
    line, with no line [#5]); only before any gate statement is the
    header a line of its own. *)
Theorem qreg_header_joins_gate_line (P : Platform) (i : nat) (d n : string) :
  i < MAX_GATES ->
  decimal d = true ->
  decimal n = true ->
  String.length n <= MAX_QUBIT_DIGITS ->
  to_stim P (gate_stmt (qasm_name i) d ++ "qreg q[" ++ n ++ "];" ++ nl)
  = Ok ((stim_name i ++ " " ++ d ++ "#" ++ n) ++ (if linux_or_cygwin P then String "013" (String "010" "") else String "010" "")
        ++ (if linux_or_cygwin P then String "013" (String "010" "") else String "010" ""), n)
  /\ line_feeds (stim_name i ++ " " ++ d ++ "#" ++ n) = 0
  /\ to_stim P ("qreg q[" ++ n ++ "];" ++ nl ++ gate_stmt (qasm_name i) d)
     = Ok (("#" ++ n) ++ (if linux_or_cygwin P then String "013" (String "010" "") else String "010" "")
           ++ (stim_name i ++ " " ++ d) ++ (if linux_or_cygwin P then String "013" (String "010" "") else String "010" ""), n)
  /\ line_feeds ("#" ++ n) = 0
  /\ line_feeds (stim_name i ++ " " ++ d) = 0.
Proof.
  intros Hi Hd Hn Hlen.
  rewrite <- !(eol_bytes P).
  assert (Hld : line_feeds d = 0)
    by (apply andb_prop in Hd as [_ Hd]; now apply line_feeds_decimal).
  assert (Hln : line_feeds n = 0)
    by (apply andb_prop in Hn as [_ Hn']; now apply line_feeds_decimal).
  split; [|split; [|split; [|split]]].
  - replace ((stim_name i ++ " " ++ d ++ "#" ++ n) ++ eol P ++ eol P)
      with (((emit_mnemonic P (stim_name i) "" "" ++ d) ++ "#" ++ n ++ eol P) ++ eol P)
      by (rewrite emit_mnemonic_first; cbn [append]; rewrite !append_assoc;
          cbn [append]; now rewrite ?append_assoc).
    apply to_stim_of_runs. unfold initial. rewrite gate_stmt_append.
    eapply runs_next;
      [apply before_eof_append, (catalog_name_shape P i Hi)
      |apply (loop_body_catalog_gate P i ""); [exact Hi|reflexivity|exact Hd]|].
    destruct (qreg_header_in_place P nl " " n (";" ++ nl)
                (emit_mnemonic P (stim_name i) "" "" ++ d) (stim_name i) ""
                eq_refl eq_refl Hn Hlen) as [Hstep _].
    eapply runs_next; [reflexivity|exact Hstep|].
    now apply runs_eof.
  - rewrite line_feeds_append, line_feeds_stim_name. cbn [append line_feeds].
    rewrite line_feeds_append, Hld. cbn [line_feeds]. now rewrite Hln.
  - replace (("#" ++ n) ++ eol P ++ (stim_name i ++ " " ++ d) ++ eol P)
      with ((emit_mnemonic P (stim_name i) "" ("" ++ "#" ++ n ++ eol P) ++ d) ++ eol P)
      by (rewrite emit_mnemonic_first; cbn [append]; rewrite !append_assoc;
          cbn [append]; now rewrite ?append_assoc).
    apply to_stim_of_runs. unfold initial.
    destruct (qreg_header_in_place P "" " " n (";" ++ nl ++ gate_stmt (qasm_name i) d)
                "" "" "" eq_refl eq_refl Hn Hlen) as [Hstep _].
    eapply runs_next; [reflexivity|exact Hstep|].
    change (eatLine (";" ++ nl ++ gate_stmt (qasm_name i) d))
      with (gate_stmt (qasm_name i) d).
    unfold gate_stmt.
    eapply runs_next;
      [apply before_eof_append, (catalog_name_shape P i Hi)
      |apply (loop_body_catalog_gate P i "" d nl); [exact Hi|reflexivity|exact Hd]|].
    apply (runs_break P (mkState nl _ _ _)); [reflexivity|].
    now apply loop_body_blank.
  - cbn [append line_feeds]. now rewrite Hln.
  - rewrite line_feeds_append, line_feeds_stim_name. cbn [append line_feeds].
    now rewrite Hld.
Qed.

Lemma qreg_header_joins_gate_line_witness :
  to_stim linux_x86_64 (gate_stmt (qasm_name 4) "0" ++ "qreg q[" ++ "5" ++ "];" ++ nl)
  = Ok ("H 0#5" ++ String "013" (String "010" "") ++ String "013" (String "010" ""), "5")
  /\ line_feeds "H 0#5" = 0
  /\ to_stim linux_x86_64 ("qreg q[" ++ "5" ++ "];" ++ nl ++ gate_stmt (qasm_name 4) "0")
     = Ok ("#5" ++ String "013" (String "010" "") ++ "H 0" ++ String "013" (String "010" ""), "5")
  /\ line_feeds "#5" = 0
  /\ line_feeds "H 0" = 0.
Proof.
  apply (qreg_header_joins_gate_line linux_x86_64 4 "0" "5");
    first [reflexivity | unfold MAX_GATES; lia | unfold MAX_QUBIT_DIGITS; simpl; lia].
Defined.

(** ** Unknown gates *)

(** C6, the claim at a concrete input: [gates] is no catalog name, yet
    [gates q[0];] raises no [UnknownGate]: the line is taken for a [gate]
    directive and dropped, the translation succeeds and the output file is
    written. *)
Lemma unknown_mnemonic_taken_as_directive :
  in_catalog "gates" = false
  /\ to_stim windows_x86_64 "gates q[0];" = Ok (nl, "")
  /\ run_file windows_x86_64 "gates q[0];"
     = {| diagnostic := None; stim_file := Some nl; qubits_logged := Some "" |}.
Proof.
  repeat split.
Qed.

(** C6, amended.  A statement that reaches [read_gate] (no directive
    keyword stands at its start) with a mnemonic of fewer than
    [MAX_GATENAME_LEN] characters that is not an initial segment of any
    catalog name (such as [t q[0];]) ends the translation with
    [UnknownGate] carrying the mnemonic, whatever was translated before and
    whatever follows; the run writes no [.stim] file; and no run that ends
    in a diagnostic writes one. *)
Theorem unknown_gate_aborts
  (P : Platform) (ws name tail to prev max_qubits : string) :
  all_chars (isSpace P) ws = true ->
  all_chars (is_name_char P) name = true ->
  String.length name < MAX_GATENAME_LEN ->
  is_name_char P (deref tail) = false ->
  at_directive (name ++ tail) = false ->
  starts_catalog_name name = false ->
  loop_body P (mkState (ws ++ name ++ tail) to prev max_qubits)
  = Err (UnknownGate name)
  /\ (forall r,
        to_stim_runs P (mkState (ws ++ name ++ tail) to prev max_qubits) r ->
        r = Err (UnknownGate name))
  /\ run_file P (ws ++ name ++ tail)
     = {| diagnostic := Some (UnknownGate name);
          stim_file := None; qubits_logged := None |}
  /\ (forall qasm,
        diagnostic (run_file P qasm) = None \/ stim_file (run_file P qasm) = None).
Proof.
  intros Hws Hname Hlen Htail Hdir Hunk.
  assert (Hne : before_eof name = true) by (destruct name; [discriminate Hunk|reflexivity]).
  assert (Hch : is_name_char P (deref (name ++ tail)) = true).
  { destruct name as [|ch name]; [discriminate Hne|].
    simpl in Hname. now apply andb_prop in Hname as [Hch _]. }
  assert (Hgate : forall to' prev',
            read_gate P (name ++ tail) to' prev' = Err (UnknownGate name)).
  { intros to' prev'. unfold read_gate. cbv zeta.
    rewrite eatWS_id by exact (name_char_not_space P _ Hch).
    rewrite read_name_append; [|assumption|assumption|lia].
    assert (Hlen' : Nat.eqb (String.length name) MAX_GATENAME_LEN = false)
      by (apply Nat.eqb_neq; lia).
    now rewrite Hlen', (translate_gate_unknown _ Hunk). }
  assert (Hstep : forall to' prev' mq,
            loop_body P (mkState (ws ++ name ++ tail) to' prev' mq)
            = Err (UnknownGate name)).
  { intros to' prev' mq. unfold loop_body. cbv zeta.
    cbn [s_from s_to s_prev s_max_qubits].
    rewrite (eatWS_spaces P _ _ Hws).
    rewrite eatWS_id by exact (name_char_not_space P _ Hch).
    rewrite (name_char_not_NUL P _ Hch).
    destruct (at_directive_false _ Hdir) as (-> & -> & -> & -> & ->).
    now rewrite Hgate. }
  assert (Hb : before_eof (ws ++ name ++ tail) = true).
  { destruct ws; [|reflexivity]. cbn [append]. now apply before_eof_append. }
  split; [apply Hstep|]. split; [|split].
  - intros r Hrun.
    inversion Hrun as [s Hb'|s Hb' Hs|s e Hb' Hs|s s' r' Hb' Hs Hnext]; subst;
      cbn [s_from] in *; rewrite ?Hstep in *; congruence.
  - assert (Hto : to_stim P (ws ++ name ++ tail) = Err (UnknownGate name)).
    { apply translates_to_stim. exists (Err (UnknownGate name)).
      split; [|reflexivity]. apply runs_exit; [exact Hb|apply Hstep]. }
    unfold run_file. now rewrite Hto.
  - intro qasm. unfold run_file.
    destruct (to_stim P qasm) as [[stim mq]|e]; [now left|now right].
Qed.

Lemma unknown_gate_aborts_witness :
  loop_body linux_x86_64 (mkState (nl ++ "t" ++ " q[0];") "#1" "" "1")
  = Err (UnknownGate "t")
  /\ (forall r,
        to_stim_runs linux_x86_64 (mkState (nl ++ "t" ++ " q[0];") "#1" "" "1") r ->
        r = Err (UnknownGate "t"))
  /\ run_file linux_x86_64 (nl ++ "t" ++ " q[0];")
     = {| diagnostic := Some (UnknownGate "t");
          stim_file := None; qubits_logged := None |}
  /\ (forall qasm,
        diagnostic (run_file linux_x86_64 qasm) = None
        \/ stim_file (run_file linux_x86_64 qasm) = None).
Proof.
  apply (unknown_gate_aborts linux_x86_64 nl "t" " q[0];" "#1" "" "1");
    first [reflexivity | unfold MAX_GATENAME_LEN; simpl; lia].
Defined.

(** ** The version directive *)

(** C7.  The claim: a declared version equal to 2.0 passes the check, any
    other ends the translation with [UnsupportedVersion].  The code:
    [toFloat] divides [f] by ten for every character after the point,
    digit or not, and multiplies the rounded results.  [2.0] passes and
    [3.0] is refused, as claimed; but the text [2.000000], whose value is
    2, gives a product one unit in the last place above 2 and is refused,
    and so is [2.0] followed by a space before the [;], which is read as
    0.2. *)
Theorem version_two_is_refused (P : Platform) :
  version_value "2.000000" = Some (2000000 # 1000000)%Q
  /\ ((2000000 # 1000000) == 2)%Q
  /\ to_stim P ("OPENQASM 2.000000;" ++ nl ++ "x q[0];") = Err UnsupportedVersion
  /\ toFloat P " 2.000000;" = Ok (0x1.0000000000001p+1%float, ";")
  /\ to_stim P ("OPENQASM 2.0 ;" ++ nl ++ "x q[0];") = Err UnsupportedVersion
  /\ toFloat P " 2.0 ;" = Ok (0x1.999999999999ap-3%float, ";")
  /\ to_stim P ("OPENQASM 2.0;" ++ nl ++ "x q[0];")
     = Ok ("X 0" ++ (if linux_or_cygwin P then String "013" (String "010" "")
                     else String "010" ""), "")
  /\ to_stim P ("OPENQASM 3.0;" ++ nl ++ "x q[0];") = Err UnsupportedVersion.
Proof.
  each_platform P; repeat split.
Qed.

(** ** Directive dispatch *)

(** C9, the claim at two concrete inputs: [qregs q[0];] and
    [OPENQASMS 2.0;] extend the keywords [qreg] and [OPENQASM]; they are
    not dropped as a line but handed to the directive's own parser, which
    ends the translation. *)
Lemma keyword_prefix_not_always_discarded :
  loop_body windows_x86_64 (mkState "qregs q[0];" "" "" "") = Err MalformedQubitRef
  /\ to_stim windows_x86_64 "qregs q[0];" = Err MalformedQubitRef
  /\ loop_body windows_x86_64 (mkState "OPENQASMS 2.0;" "" "" "") = Err MalformedVersion
  /\ to_stim windows_x86_64 "OPENQASMS 2.0;" = Err MalformedVersion.
Proof.
  repeat split.
Qed.

(** C9, amended.  The dispatch of [to_stim] only tests whether the
    characters of a keyword stand at the cursor.  Whatever follows them,
    the statement goes to that directive: after [creg], [include] and
    [gate] the line is dropped and nothing else changes; after [qreg] and
    [OPENQASM] the rest is read as a register size or a version, which can
    end the translation with the diagnostics of [toQubit] and [toFloat] or
    with [UnsupportedVersion].  In no case is the statement looked up in
    the catalog: the iteration never ends with [UnknownGate]. *)
Theorem directive_dispatch_by_prefix
  (P : Platform) (tail to prev max_qubits : string) :
  loop_body P (mkState ("creg" ++ tail) to prev max_qubits)
  = Ok (Some (mkState (eatLine tail) to prev max_qubits))
  /\ loop_body P (mkState ("include" ++ tail) to prev max_qubits)
     = Ok (Some (mkState (eatLine tail) to prev max_qubits))
  /\ loop_body P (mkState ("gate" ++ tail) to prev max_qubits)
     = Ok (Some (mkState (eatLine tail) to prev max_qubits))
  /\ loop_body P (mkState ("qreg" ++ tail) to prev max_qubits)
     = ('(qubits, from) <- toQubit P tail ;;
        Ok (Some (mkState (eatLine from) (to ++ "#" ++ qubits ++ eol P)
                          prev qubits)))
  /\ loop_body P (mkState ("OPENQASM" ++ tail) to prev max_qubits)
     = ('(version, from) <- toFloat P tail ;;
        if negb (PrimFloat.eqb version 2%float) then Err UnsupportedVersion
        else Ok (Some (mkState (eatLine from) to prev max_qubits)))
  /\ (forall kw name,
        In kw ["OPENQASM"; "qreg"; "creg"; "include"; "gate"] ->
        loop_body P (mkState (kw ++ tail) to prev max_qubits)
        <> Err (UnknownGate name))
  /\ (forall kw from,
        In kw ["OPENQASM"; "qreg"; "creg"; "include"; "gate"] ->
        match_ from (String.length kw) kw = true <-> exists rest, from = kw ++ rest).
Proof.
  assert (H1 : loop_body P (mkState ("creg" ++ tail) to prev max_qubits)
               = Ok (Some (mkState (eatLine tail) to prev max_qubits)))
    by reflexivity.
  assert (H2 : loop_body P (mkState ("include" ++ tail) to prev max_qubits)
               = Ok (Some (mkState (eatLine tail) to prev max_qubits)))
    by reflexivity.
  assert (H3 : loop_body P (mkState ("gate" ++ tail) to prev max_qubits)
               = Ok (Some (mkState (eatLine tail) to prev max_qubits)))
    by reflexivity.
  assert (H4 : loop_body P (mkState ("qreg" ++ tail) to prev max_qubits)
               = ('(qubits, from) <- toQubit P tail ;;
                  Ok (Some (mkState (eatLine from) (to ++ "#" ++ qubits ++ eol P)
                                    prev qubits))))
    by reflexivity.
  assert (H5 : loop_body P (mkState ("OPENQASM" ++ tail) to prev max_qubits)
               = ('(version, from) <- toFloat P tail ;;
                  if negb (PrimFloat.eqb version 2%float) then Err UnsupportedVersion
                  else Ok (Some (mkState (eatLine from) to prev max_qubits))))
    by reflexivity.
  repeat (split; [assumption|]). split.
  - intros kw name Hkw. simpl in Hkw.
    destruct Hkw as [<-|[<-|[<-|[<-|[<-|[]]]]]];
      rewrite ?H1, ?H2, ?H3, ?H4, ?H5; try discriminate.
    + pose proof (toFloat_length P tail) as Hf.
      destruct (toFloat P tail) as [[v r]|e]; cbn [bind].
      * now destruct (negb (PrimFloat.eqb v 2)).
      * destruct Hf as [-> | ->]; discriminate.
    + destruct (toQubit P tail) as [[n r]|e] eqn:Hq; cbn [bind]; [discriminate|].
      apply toQubit_error in Hq. subst e. discriminate.
  - intros kw from Hkw. simpl in Hkw.
    destruct Hkw as [<-|[<-|[<-|[<-|[<-|[]]]]]];
      now apply match_spec.
Qed.

(** ** Reads outside the buffer *)

Section MemoryRuns.

Variable P : Platform.

Lemma before_eof_in_buffer (from : string) :
  before_eof_in "" from = before_eof from.
Proof.
  now destruct from.
Qed.

Lemma read_inputs_in_buffer (fuel : nat) (from to : string) :
  read_inputs_in P "" fuel from to = read_inputs P fuel from to.
Proof.
  revert from to. induction fuel as [|fuel IH]; intros from to;
    cbn [read_inputs_in read_inputs]; rewrite before_eof_in_buffer; [reflexivity|].
  destruct (_ && _); [|reflexivity].
  destruct (toQubit P (advance from)) as [[n from']|e]; [|reflexivity].
  cbn [bind]. apply IH.
Qed.

Lemma read_gate_in_buffer (from to prev : string) :
  read_gate_in P "" from to prev = read_gate P from to prev.
Proof.
  unfold read_gate_in, read_gate. cbv zeta.
  destruct (Nat.eqb _ _); [reflexivity|].
  destruct (translate_gate _) as [i|e]; [|reflexivity].
  cbn [bind]. now rewrite read_inputs_in_buffer.
Qed.

Lemma loop_body_in_buffer (s : State) :
  loop_body_in P "" s = loop_body P s.
Proof.
  unfold loop_body_in, loop_body. cbv zeta. now rewrite read_gate_in_buffer.
Qed.

Lemma to_stim_loop_in_buffer (fuel : nat) (s : State) :
  to_stim_loop_in P "" fuel s = to_stim_loop P fuel s.
Proof.
  revert s. induction fuel as [|fuel IH]; intro s;
    cbn [to_stim_loop_in to_stim_loop]; rewrite before_eof_in_buffer; [reflexivity|].
  destruct (before_eof (s_from s)); [|reflexivity].
  rewrite loop_body_in_buffer.
  destruct (loop_body P s) as [[s'|]|e]; try reflexivity.
  cbn [bind]. apply IH.
Qed.

(** With nothing modelled after the buffer the translation in memory is
    [to_stim]. *)
Lemma to_stim_in_buffer (qasm : string) :
  to_stim_in P qasm "" = to_stim P qasm.
Proof.
  unfold to_stim_in, to_stim.
  replace (qasm ++ "") with qasm by (induction qasm as [|c q IH]; [reflexivity|];
                                     cbn [append]; now rewrite <- IH).
  now rewrite to_stim_loop_in_buffer.
Qed.

(** The loop of [toFloat] runs over zero bytes as over any character that
    is no digit, no point and no [;]. *)
Lemma toFloat_loop_nuls (k : nat) (rest : string) (n f : float) :
  toFloat_loop P (nuls k ++ rest) n f false = toFloat_loop P rest n f false.
Proof.
  induction k as [|k IH]; [reflexivity|].
  cbn [nuls append toFloat_loop].
  replace (isDigit P NUL) with false by (each_platform P; reflexivity).
  exact IH.
Qed.

Lemma length_nuls (k : nat) : String.length (nuls k) = k.
Proof.
  induction k as [|k IH]; [reflexivity|]. cbn [nuls String.length]. now rewrite IH.
Qed.

End MemoryRuns.

Lemma eatLine_at_nul (b : string) : deref b = NUL -> eatLine b = b.
Proof.
  destruct b as [|c b]; [reflexivity|]. cbn [deref]. now intros ->.
Qed.

Lemma copy_digits_at_nul (P : Platform) (b : string) :
  deref b = NUL -> copy_digits P b = ("", b).
Proof.
  destruct b as [|c b]; [reflexivity|]. cbn [deref]. intros ->.
  cbn [copy_digits].
  now replace (isDigit P NUL) with false by (each_platform P; reflexivity).
Qed.

Lemma read_name_at_nul (P : Platform) (cap : nat) (b : string) :
  deref b = NUL -> read_name P cap b = "".
Proof.
  destruct cap as [|cap]; [reflexivity|].
  destruct b as [|c b]; [reflexivity|]. cbn [deref]. intros ->.
  cbn [read_name].
  now replace (isalpha P NUL) with false by (each_platform P; reflexivity).
Qed.

Section MemoryAgreement.

Variable P : Platform.
Variable beyond : string.
Hypothesis at_eof : deref beyond = NUL.

Lemma deref_in_memory (s : string) : deref (s ++ beyond) = deref s.
Proof.
  destruct s; [exact at_eof|reflexivity].
Qed.

Lemma before_eof_in_memory (s : string) :
  before_eof_in beyond (s ++ beyond) = before_eof s.
Proof.
  unfold before_eof_in. rewrite length_append.
  destruct s as [|c s]; cbn [String.length before_eof].
  - apply Nat.ltb_irrefl.
  - apply Nat.ltb_lt. lia.
Qed.

Lemma eatWS_in_memory (s : string) : eatWS P (s ++ beyond) = eatWS P s ++ beyond.
Proof.
  induction s as [|c s IH]; cbn [append eatWS].
  - apply eatWS_id. rewrite at_eof. each_platform P; reflexivity.
  - now destruct (isSpace P c).
Qed.

Lemma eatLine_in_memory (s : string) : eatLine (s ++ beyond) = eatLine s ++ beyond.
Proof.
  induction s as [|c s IH]; cbn [append eatLine].
  - now apply eatLine_at_nul.
  - destruct (c =? NUL)%char; [reflexivity|].
    now destruct (c =? LF)%char.
Qed.

Lemma match_loop_in_memory (s ref : string) (c : nat) :
  all_chars (fun ch => negb (ch =? NUL)%char) ref = true ->
  match_loop (s ++ beyond) ref c = match_loop s ref c.
Proof.
  revert s c. induction ref as [|r ref IH]; intros s c Href; [reflexivity|].
  cbn [all_chars] in Href. apply andb_prop in Href as [Hr Href].
  cbn [match_loop]. rewrite deref_in_memory.
  destruct (r =? deref s)%char eqn:E; [|reflexivity].
  apply Ascii.eqb_eq in E.
  destruct s as [|a s].
  - cbn [deref] in E. subst r. vm_compute in Hr. discriminate Hr.
  - cbn [append advance]. now apply IH.
Qed.

Lemma match_in_memory (s : string) (size : nat) (ref : string) :
  all_chars (fun ch => negb (ch =? NUL)%char) ref = true ->
  match_ (s ++ beyond) size ref = match_ s size ref.
Proof.
  intro Href. unfold match_. destruct ref as [|r ref]; [reflexivity|].
  now rewrite match_loop_in_memory.
Qed.

Lemma copy_digits_in_memory (s : string) :
  copy_digits P (s ++ beyond) = let '(n, r) := copy_digits P s in (n, r ++ beyond).
Proof.
  induction s as [|c s IH]; cbn [append copy_digits].
  - now apply copy_digits_at_nul.
  - destruct (isDigit P c); [|reflexivity].
    rewrite IH. now destruct (copy_digits P s).
Qed.

Lemma toQubit_in_memory (s : string) :
  toQubit P (s ++ beyond) = '(n, r) <- toQubit P s ;; Ok (n, r ++ beyond).
Proof.
  unfold toQubit. cbv zeta. rewrite eatWS_in_memory, deref_in_memory.
  destruct (eatWS P s) as [|c1 s1]; [reflexivity|].
  cbn [deref append advance].
  destruct (negb (c1 =? "q")%char); [reflexivity|].
  rewrite deref_in_memory.
  destruct s1 as [|c2 s2]; [reflexivity|].
  cbn [deref append advance].
  destruct (negb (c2 =? "[")%char); [reflexivity|].
  rewrite deref_in_memory.
  destruct (negb (isDigit P (deref s2))); [reflexivity|].
  rewrite copy_digits_in_memory.
  destruct (copy_digits P s2) as [n r].
  rewrite deref_in_memory.
  destruct r as [|c3 r]; [reflexivity|].
  cbn [deref append advance].
  now destruct (negb (c3 =? "]")%char).
Qed.

Lemma toFloat_loop_in_memory (s : string) (n f : float) (is_point : bool) :
  toFloat_loop P s n f is_point <> Err ReadPastEnd ->
  toFloat_loop P (s ++ beyond) n f is_point
  = '(v, r) <- toFloat_loop P s n f is_point ;; Ok (v, r ++ beyond).
Proof.
  revert n f is_point. induction s as [|c s IH]; intros n f is_point H.
  - now elim H.
  - cbn [append toFloat_loop] in *.
    destruct (c =? ";")%char; [reflexivity|]. now apply IH.
Qed.

Lemma toFloat_in_memory (s : string) :
  toFloat P s <> Err ReadPastEnd ->
  toFloat P (s ++ beyond) = '(v, r) <- toFloat P s ;; Ok (v, r ++ beyond).
Proof.
  unfold toFloat. cbv zeta. rewrite eatWS_in_memory, deref_in_memory.
  destruct (negb (isDigit P (deref (eatWS P s)))); [reflexivity|].
  apply toFloat_loop_in_memory.
Qed.

Lemma read_name_in_memory (cap : nat) (s : string) :
  read_name P cap (s ++ beyond) = read_name P cap s.
Proof.
  revert s. induction cap as [|cap IH]; intro s; [reflexivity|].
  destruct s as [|c s].
  - now apply read_name_at_nul.
  - cbn [append read_name].
    destruct (isalpha P c || (c =? "_")%char); [now rewrite IH|reflexivity].
Qed.

Lemma drop_in_memory (n : nat) (s : string) :
  n <= String.length s -> drop n (s ++ beyond) = drop n s ++ beyond.
Proof.
  revert s. induction n as [|n IH]; intros s H; [reflexivity|].
  destruct s as [|c s]; [cbn in H; lia|].
  cbn [append drop advance]. apply IH. cbn in H. lia.
Qed.

Lemma read_inputs_in_memory (fuel fuel' : nat) (from to : string) :
  String.length from <= fuel -> String.length from <= fuel' ->
  read_inputs_in P beyond fuel' (from ++ beyond) to
  = '(f, t) <- read_inputs P fuel from to ;; Ok (f ++ beyond, t).
Proof.
  revert fuel' from to. induction fuel as [|fuel IH]; intros fuel' from to H H'.
  - destruct from as [|c from]; [|cbn in H; lia].
    destruct fuel'; cbn [read_inputs_in read_inputs];
      rewrite (before_eof_in_memory ""), andb_false_r; reflexivity.
  - destruct fuel' as [|fuel'].
    + destruct from as [|c from]; [|cbn in H'; lia].
      cbn [read_inputs_in read_inputs].
      rewrite (before_eof_in_memory ""), andb_false_r. reflexivity.
    + cbn [read_inputs_in read_inputs].
      rewrite deref_in_memory, match_in_memory, before_eof_in_memory by reflexivity.
      destruct (negb (deref from =? ";")%char && negb (match_ from 2 "->")
                && before_eof from) eqn:E; [|reflexivity].
      apply andb_prop in E as [_ E].
      destruct from as [|c from]; [discriminate E|].
      cbn [append advance deref]. rewrite toQubit_in_memory.
      destruct (toQubit P from) as [[n r]|e] eqn:Eq; [|reflexivity].
      cbn [bind]. rewrite eatWS_in_memory.
      apply (toQubit_length P) in Eq. pose proof (eatWS_length P r).
      cbn in H, H'. apply IH; lia.
Qed.

Lemma read_gate_in_memory (from to prev : string) :
  read_gate_in P beyond (from ++ beyond) to prev
  = '(f, t, p) <- read_gate P from to prev ;; Ok (f ++ beyond, t, p).
Proof.
  unfold read_gate_in, read_gate. cbv zeta.
  rewrite eatWS_in_memory, read_name_in_memory.
  destruct (Nat.eqb _ _); [reflexivity|].
  destruct (translate_gate _) as [i|e]; [|reflexivity]. cbn [bind].
  destruct (read_name_split P MAX_GATENAME_LEN (eatWS P from)) as [tail Htail].
  rewrite drop_in_memory
    by (rewrite Htail at 2; rewrite length_append; lia).
  rewrite (read_inputs_in_memory
             (String.length (drop (String.length (read_name P MAX_GATENAME_LEN (eatWS P from)))
                               (eatWS P from))))
    by (rewrite ?length_append; lia).
  destruct (read_inputs P _ _ _) as [[f t]|e]; [|reflexivity]. cbn [bind].
  rewrite deref_in_memory, match_in_memory, eatLine_in_memory by reflexivity.
  destruct (deref f =? ";")%char eqn:E.
  - destruct f as [|c f]; [discriminate E|]. reflexivity.
  - now destruct (match_ f 2 "->").
Qed.

Lemma loop_body_in_memory (s : State) :
  loop_body P s <> Err ReadPastEnd ->
  loop_body_in P beyond (in_memory beyond s)
  = r <- loop_body P s ;; Ok (option_map (in_memory beyond) r).
Proof.
  unfold loop_body_in, loop_body, in_memory. cbv zeta.
  cbn [s_from s_to s_prev s_max_qubits].
  rewrite eatWS_in_memory, deref_in_memory, !match_in_memory by reflexivity.
  set (from := eatWS P (s_from s)).
  destruct (deref from =? NUL)%char; [reflexivity|].
  destruct (match_ from 8 "OPENQASM") eqn:E1.
  { apply (match_spec from "OPENQASM") in E1 as [tail ->]; [|reflexivity..].
    change (drop 8 (("OPENQASM" ++ tail) ++ beyond)) with (tail ++ beyond).
    change (drop 8 ("OPENQASM" ++ tail)) with tail.
    intro H. rewrite toFloat_in_memory.
    - destruct (toFloat P tail) as [[v r]|e]; [|reflexivity]. cbn [bind].
      destruct (negb _); [reflexivity|].
      cbn [bind option_map s_from s_to s_prev s_max_qubits].
      now rewrite eatLine_in_memory.
    - intro E. rewrite E in H. now apply H. }
  intros _.
  destruct (match_ from 4 "qreg") eqn:E2.
  { apply (match_spec from "qreg") in E2 as [tail ->]; [|reflexivity..].
    change (drop 4 (("qreg" ++ tail) ++ beyond)) with (tail ++ beyond).
    change (drop 4 ("qreg" ++ tail)) with tail.
    rewrite toQubit_in_memory.
    destruct (toQubit P tail) as [[n r]|e]; [|reflexivity].
    cbn [bind option_map s_from s_to s_prev s_max_qubits].
    now rewrite eatLine_in_memory. }
  destruct (match_ from 4 "creg");
    [cbn [bind option_map s_from s_to s_prev s_max_qubits];
     now rewrite eatLine_in_memory|].
  destruct (match_ from 7 "include");
    [cbn [bind option_map s_from s_to s_prev s_max_qubits];
     now rewrite eatLine_in_memory|].
  destruct (match_ from 4 "gate");
    [cbn [bind option_map s_from s_to s_prev s_max_qubits];
     now rewrite eatLine_in_memory|].
  rewrite read_gate_in_memory.
  now destruct (read_gate P from (s_to s) (s_prev s)) as [[[f t] p]|e].
Qed.

Lemma to_stim_loop_in_memory (fuel : nat) (s : State) :
  to_stim_loop P fuel s <> Err ReadPastEnd ->
  to_stim_loop_in P beyond fuel (in_memory beyond s) = to_stim_loop P fuel s.
Proof.
  revert s. induction fuel as [|fuel IH]; intros s H;
    cbn [to_stim_loop_in to_stim_loop] in *;
    change (s_from (in_memory beyond s)) with (s_from s ++ beyond);
    rewrite before_eof_in_memory; [reflexivity|].
  destruct (before_eof (s_from s)); [|reflexivity].
  rewrite loop_body_in_memory
    by (intro E; rewrite E in H; now apply H).
  destruct (loop_body P s) as [[s'|]|e]; try reflexivity.
  cbn [bind option_map] in *. now apply IH.
Qed.

End MemoryAgreement.

(** X24.  A translation that stays inside its buffer does not depend on
    the memory after it: with the NUL of [read_qasm] at [eof], and
    whatever bytes follow, the translation in memory ends as [to_stim]
    does on the buffer alone, with the same output and qubit count or the
    same diagnostic, unless [to_stim] reports a read past the end. *)
Theorem in_bounds_run_ignores_memory (P : Platform) (qasm beyond : string) :
  deref beyond = NUL ->
  to_stim P qasm <> Err ReadPastEnd ->
  to_stim_in P qasm beyond = to_stim P qasm.
Proof.
  intros Hnul H. unfold to_stim_in, to_stim in *.
  change (initial (qasm ++ beyond)) with (in_memory beyond (initial qasm)).
  rewrite to_stim_loop_in_memory; [reflexivity|exact Hnul|].
  intro E. rewrite E in H. now apply H.
Qed.

Lemma in_bounds_run_ignores_memory_witness :
  to_stim_in linux_x86_64
    ("OPENQASM 2.0;" ++ nl ++ "qreg q[2];" ++ nl ++ "h q[0];" ++ nl ++ "cx q[0],q[1]")
    (nuls 3 ++ "0;")
  = to_stim linux_x86_64
      ("OPENQASM 2.0;" ++ nl ++ "qreg q[2];" ++ nl ++ "h q[0];" ++ nl ++ "cx q[0],q[1]").
Proof.
  apply (in_bounds_run_ignores_memory linux_x86_64
           ("OPENQASM 2.0;" ++ nl ++ "qreg q[2];" ++ nl ++ "h q[0];" ++ nl ++ "cx q[0],q[1]")
           (nuls 3 ++ "0;")).
  - reflexivity.
  - vm_compute. discriminate.
Defined.

(** C10.  The claim: two translations of the same buffer give the same
    output and the same qubit count.  The code: the loop of [toFloat] only
    stops at a [;].  On the buffer [OPENQASM 2], which has none, the
    translation reads outside the buffer: the loop runs over the NUL at
    [eof] and over the zero bytes after it and goes on with the bytes that
    happen to follow in memory, and what it does then depends on them and
    not on the buffer alone.  When a [;] comes first the version read is 2
    and a file with one empty line is written; when [0;] comes first the
    version read is 20 and the run ends with [UnsupportedVersion]. *)
Theorem version_read_leaves_the_buffer (P : Platform) (k : nat) :
  to_stim P "OPENQASM 2" = Err ReadPastEnd
  /\ to_stim_in P "OPENQASM 2" (nuls (S k) ++ ";" ++ nuls 1)
     = Ok ((if linux_or_cygwin P then String "013" (String "010" "") else String "010" ""), "")
  /\ to_stim_in P "OPENQASM 2" (nuls (S k) ++ "0;" ++ nuls 1)
     = Err UnsupportedVersion.
Proof.
  split; [each_platform P; reflexivity|].
  assert (Hlt : forall tail : string,
             before_eof_in (nuls (S k) ++ tail) ("OPENQASM 2" ++ nuls (S k) ++ tail) = true).
  { intro tail. unfold before_eof_in. apply Nat.ltb_lt.
    rewrite (length_append "OPENQASM 2"). simpl String.length at 2. lia. }
  assert (Hfloat : forall tail : string,
             toFloat P (" 2" ++ nuls (S k) ++ tail)
             = toFloat_loop P tail 2%float 1%float false).
  { intro tail. unfold toFloat.
    change (eatWS P (" 2" ++ nuls (S k) ++ tail)) with (eatWS P (" " ++ "2" ++ nuls (S k) ++ tail)).
    rewrite (eatWS_spaces P " ") by (each_platform P; reflexivity).
    rewrite eatWS_id by (each_platform P; reflexivity).
    replace (isDigit P (deref ("2" ++ nuls (S k) ++ tail))) with true
      by (each_platform P; reflexivity).
    cbn [negb append toFloat_loop Ascii.eqb Bool.eqb].
    replace (isDigit P "2") with true by (each_platform P; reflexivity).
    change (String NUL (nuls k ++ tail)) with (nuls (S k) ++ tail).
    rewrite toFloat_loop_nuls. each_platform P; reflexivity. }
  assert (Hbody : forall tail : string,
             loop_body_in P (nuls (S k) ++ tail)
               (initial ("OPENQASM 2" ++ nuls (S k) ++ tail))
             = '(version, from) <- toFloat_loop P tail 2%float 1%float false ;;
               if negb (PrimFloat.eqb version 2%float) then Err UnsupportedVersion
               else Ok (Some (mkState (eatLine from) "" "" ""))).
  { intro tail. unfold loop_body_in, initial. cbv zeta. cbn [s_from s_to s_prev s_max_qubits].
    rewrite eatWS_id by (each_platform P; reflexivity).
    change (match_ ("OPENQASM 2" ++ nuls (S k) ++ tail) 8 "OPENQASM") with true.
    change (drop 8 ("OPENQASM 2" ++ nuls (S k) ++ tail)) with (" 2" ++ nuls (S k) ++ tail).
    cbn [deref append Ascii.eqb Bool.eqb NUL].
    change (String " " (String "2" (nuls (S k) ++ tail)))
      with (" 2" ++ nuls (S k) ++ tail).
    now rewrite Hfloat. }
  split.
  - unfold to_stim_in. simpl String.length. cbn [to_stim_loop_in].
    rewrite Hlt, Hbody. cbn [initial s_from].
    each_platform P; reflexivity.
  - unfold to_stim_in. simpl String.length. cbn [to_stim_loop_in].
    rewrite Hlt, Hbody. cbn [initial s_from].
    each_platform P; reflexivity.
Qed.

(** ** Sample translations *)

Example bell_pair_with_measurements :
  to_stim windows_x86_64
    ("OPENQASM 2.0;" ++ nl ++ "include " ++ String DQUOTE ("qelib1.inc" ++ String DQUOTE ";") ++ nl
     ++ "qreg q[2];" ++ nl ++ "creg c[2];" ++ nl
     ++ "h q[0];" ++ nl ++ "cx q[0],q[1];" ++ nl
     ++ "measure q[0] -> c[0];" ++ nl ++ "measure q[1] -> c[1];" ++ nl)
  = Ok ("#2" ++ nl ++ "H 0" ++ nl ++ "CX 0 1" ++ nl ++ "M 0 1" ++ nl, "2").
Proof.
  reflexivity.
Qed.

Example measurement_target_is_dropped (P : Platform) :
  to_stim P "measure q[0] -> c[0];" = Ok ("M 0" ++ eol P, "").
Proof.
  each_platform P; reflexivity.
Qed.

Example carriage_return_on_linux :
  to_stim linux_x86_64 ("x q[0];" ++ nl ++ "z q[0];")
  = Ok ("X 0" ++ String CR nl ++ "Z 0" ++ String CR nl, "").
Proof.
  reflexivity.
Qed.

Example version_without_terminator :
  to_stim windows_x86_64 "OPENQASM 2.0" = Err ReadPastEnd.
Proof.
  reflexivity.
Qed.

Example long_gate_name :
  to_stim windows_x86_64 "abcdefghijklmnop q[0];" = Err GateNameTooLong.
Proof.
  reflexivity.
Qed.

(** * Further properties of the scanner *)

Lemma all_chars_append (p : ascii -> bool) (a b : string) :
  all_chars p (a ++ b) = all_chars p a && all_chars p b.
Proof.
  induction a as [|ch a IH]; simpl; [reflexivity|].
  now rewrite IH, andb_assoc.
Qed.

(** X1.  [eatWS] drops exactly the longest run of white space at the
    cursor: what it skips is white space, what it stops at is not, and a
    second call skips nothing more. *)
Theorem eatWS_skips_leading_space (P : Platform) (str : string) :
  (exists ws, str = ws ++ eatWS P str /\ all_chars (isSpace P) ws = true)
  /\ isSpace P (deref (eatWS P str)) = false
  /\ eatWS P (eatWS P str) = eatWS P str.
Proof.
  split; [apply eatWS_split|]. split; [apply eatWS_head|apply eatWS_idem].
Qed.

Lemma eatLine_to_end (body : string) :
  all_chars in_line body = true -> eatLine body = "".
Proof.
  induction body as [|ch body IH]; simpl; [reflexivity|].
  unfold in_line at 1. intros [[H1 H2]%andb_prop H3]%andb_prop.
  apply negb_true_iff in H1, H2. rewrite H1, H2. now apply IH.
Qed.

Lemma eatLine_at_NUL (body rest : string) :
  all_chars in_line body = true ->
  eatLine (body ++ String NUL rest) = String NUL rest.
Proof.
  induction body as [|ch body IH]; simpl; [reflexivity|].
  unfold in_line at 1. intros [[H1 H2]%andb_prop H3]%andb_prop.
  apply negb_true_iff in H1, H2. rewrite H1, H2. now apply IH.
Qed.

(** X2.  [eatLine] moves the cursor just past the next line feed; without
    a line feed it moves to the end of the buffer; and it stops on a NUL
    byte that comes first, without passing it. *)
Theorem eatLine_stops (body rest : string) :
  all_chars in_line body = true ->
  eatLine (body ++ String LF rest) = rest
  /\ eatLine body = ""
  /\ eatLine (body ++ String NUL rest) = String NUL rest.
Proof.
  intro H. split; [now apply eatLine_line|].
  split; [now apply eatLine_to_end|now apply eatLine_at_NUL].
Qed.

Lemma eatLine_stops_witness :
  eatLine ("creg c[2];" ++ String LF "x q[0];") = "x q[0];"
  /\ eatLine "creg c[2];" = ""
  /\ eatLine ("creg c[2];" ++ String NUL "x q[0];") = String NUL "x q[0];".
Proof.
  apply (eatLine_stops "creg c[2];" "x q[0];"). reflexivity.
Defined.

(** X3.  [match(in, size, ref)] holds exactly when [ref] is not empty,
    [size] is its length and its characters stand at [in]; what follows
    them in [in] is not looked at. *)
Theorem match_exactly_prefix (inp ref : string) (size : nat) :
  all_chars (not_char NUL) ref = true ->
  match_ inp size ref = true
  <-> before_eof ref = true /\ size = String.length ref
      /\ exists tail, inp = ref ++ tail.
Proof.
  intro Href. unfold match_. destruct ref as [|r ref].
  - split; [discriminate|]. now intros [H _].
  - split.
    + destruct (match_loop inp (String r ref) 0) as [c|] eqn:E; [|discriminate].
      intros Hc%Nat.eqb_eq. subst c.
      destruct (match_loop_split _ _ _ _ Href E) as [Hn Htail].
      split; [reflexivity|]. split; [exact Hn|exact Htail].
    + intros (_ & -> & tail & ->). rewrite match_loop_append.
      apply Nat.eqb_refl.
Qed.

Lemma match_exactly_prefix_witness :
  match_ "gatefoo q[0];" 4 "gate" = true
  <-> before_eof "gate" = true /\ 4 = String.length "gate"
      /\ exists tail, "gatefoo q[0];" = "gate" ++ tail.
Proof.
  apply (match_exactly_prefix "gatefoo q[0];" "gate" 4). reflexivity.
Defined.

Section VersionNumber.

Variable P : Platform.

Lemma toFloat_loop_split (str : string) (n f : float) (is_point : bool) :
  match toFloat_loop P str n f is_point with
  | Ok (_, r) =>
      exists pre, str = pre ++ r /\ all_chars (not_char ";") pre = true
                  /\ deref r = ";"%char
  | Err e => e = ReadPastEnd /\ all_chars (not_char ";") str = true
  end.
Proof.
  revert n f is_point.
  induction str as [|ch str IH]; intros n f is_point; cbn [toFloat_loop].
  - now split.
  - destruct (ch =? ";")%char eqn:E.
    + apply Ascii.eqb_eq in E. subst ch. now exists "".
    + assert (Hch : not_char ";" ch = true) by (unfold not_char; now rewrite E).
      match goal with |- context [toFloat_loop P str ?a ?b ?c] =>
        specialize (IH a b c); destruct (toFloat_loop P str a b c) as [[v r]|e]
      end.
      * destruct IH as (pre & -> & Hpre & Hr). exists (String ch pre).
        cbn [append all_chars]. now rewrite Hch, Hpre.
      * destruct IH as [-> Hs]. cbn [all_chars]. now rewrite Hch, Hs.
Qed.

End VersionNumber.

(** X4.  [toFloat] fails with [MalformedVersion] exactly when the first
    character after the white space is not one [isDigit] accepts; it reads
    past the end of the buffer exactly when that character is accepted and
    no [;] follows; otherwise it succeeds and leaves the cursor on the
    first [;], having consumed nothing after it. *)
Theorem toFloat_outcomes (P : Platform) (str : string) :
  match toFloat P str with
  | Ok (_, rest) =>
      isDigit P (deref (eatWS P str)) = true
      /\ exists number, eatWS P str = number ++ rest
                        /\ all_chars (not_char ";") number = true
                        /\ deref rest = ";"%char
  | Err e =>
      (e = MalformedVersion /\ isDigit P (deref (eatWS P str)) = false)
      \/ (e = ReadPastEnd /\ isDigit P (deref (eatWS P str)) = true
          /\ all_chars (not_char ";") (eatWS P str) = true)
  end.
Proof.
  unfold toFloat. cbv zeta.
  destruct (isDigit P (deref (eatWS P str))) eqn:Hd; cbn [negb]; [|now left].
  pose proof (toFloat_loop_split P (eatWS P str) 0%float 1%float false) as H.
  destruct (toFloat_loop P (eatWS P str) 0 1 false) as [[v r]|e].
  - now split.
  - right. destruct H as [-> H]. now repeat split.
Qed.

(** X5.  For a version written as one digit, a point and one digit, the
    check of [to_stim] lets [2.0] through, dropping the rest of the line,
    and ends the translation with [UnsupportedVersion] for the 99 others. *)
Theorem version_digit_point_digit
  (P : Platform) (a b : nat) (rest to prev max_qubits : string) :
  a < 10 -> b < 10 ->
  loop_body P
    (mkState ("OPENQASM " ++ String (digit_char a) (String "." (String (digit_char b) (";" ++ rest))))
             to prev max_qubits)
  = if Nat.eqb a 2 && Nat.eqb b 0
    then Ok (Some (mkState (eatLine rest) to prev max_qubits))
    else Err UnsupportedVersion.
Proof.
  intros Ha Hb.
  do 10 (destruct a as [|a];
         [do 10 (destruct b as [|b]; [reflexivity|]); lia|]).
  lia.
Qed.

Lemma version_digit_point_digit_witness :
  loop_body linux_x86_64
    (mkState ("OPENQASM " ++ String (digit_char 2) (String "." (String (digit_char 1) (";" ++ nl))))
             "" "" "")
  = if Nat.eqb 2 2 && Nat.eqb 1 0
    then Ok (Some (mkState (eatLine nl) "" "" ""))
    else Err UnsupportedVersion.
Proof.
  apply (version_digit_point_digit linux_x86_64 2 1 nl "" "" ""); lia.
Defined.

(** * Further properties of the gate catalog *)

(** X6.  Whatever [translate_gate] returns is an index of the catalog, as
    the [assert] of [read_gate] expects, and the Stim name at that index is
    not empty and, with its NUL, fits the block of [MAX_GATENAME_LEN + 1]
    bytes of [prev]. *)
Theorem translate_gate_in_bounds (inp : string) (i : nat) :
  translate_gate inp = Ok i ->
  i < MAX_GATES
  /\ before_eof (stim_name i) = true
  /\ String.length (stim_name i) + 1 <= MAX_GATENAME_LEN + 1.
Proof.
  intro H. pose proof (translate_gate_spec inp) as Hs. rewrite H in Hs.
  destruct Hs as [Hi _]. split; [exact Hi|].
  unfold MAX_GATES in Hi. unfold MAX_GATENAME_LEN.
  do 13 (destruct i as [|i]; [split; [reflexivity|simpl; lia]|]). lia.
Qed.

Lemma translate_gate_in_bounds_witness :
  6 < MAX_GATES
  /\ before_eof (stim_name 6) = true
  /\ String.length (stim_name 6) + 1 <= MAX_GATENAME_LEN + 1.
Proof.
  apply (translate_gate_in_bounds "sdg" 6). reflexivity.
Defined.

(** X7.  Every name of the catalog is resolved to its own entry: no
    earlier entry takes it over, although [translate_gate] accepts initial
    segments and [s] and [i] start later names.  So each QASM name gets the
    Stim name written beside it in the two tables. *)
Theorem catalog_names_resolve_to_themselves (i : nat) :
  i < MAX_GATES ->
  translate_gate (qasm_name i) = Ok i
  /\ map (fun name => i <- translate_gate name ;; Ok (stim_name i)) GATE_QASM
     = map Ok GATE_STIM.
Proof.
  intro Hi. split; [|reflexivity].
  unfold MAX_GATES in Hi.
  do 13 (destruct i as [|i]; [reflexivity|]). lia.
Qed.

Lemma catalog_names_resolve_to_themselves_witness :
  translate_gate (qasm_name 5) = Ok 5
  /\ map (fun name => i <- translate_gate name ;; Ok (stim_name i)) GATE_QASM
     = map Ok GATE_STIM.
Proof.
  apply (catalog_names_resolve_to_themselves 5). unfold MAX_GATES. lia.
Defined.

Lemma scan_gates_first (refs : list string) (k : nat) (inp : string) (j : nat) :
  forallb (all_chars (fun ch => negb (ch =? NUL)%char)) refs = true ->
  scan_gates refs k inp = Some j
  <-> exists m, j = k + m /\ m < List.length refs
                /\ String.prefix inp (nth m refs "") = true
                /\ forall m', m' < m -> String.prefix inp (nth m' refs "") = false.
Proof.
  revert k. induction refs as [|ref refs IH]; intros k Hrefs; cbn [scan_gates].
  - split; [discriminate|]. intros (m & _ & Hm & _). simpl in Hm. lia.
  - cbn [forallb] in Hrefs. apply andb_prop in Hrefs as [Href Hrefs].
    rewrite (common_len_prefix _ _ Href).
    destruct (String.prefix inp ref) eqn:E.
    + split.
      * intro H. injection H as <-. exists 0. repeat split; try (simpl; lia).
        exact E.
      * intros (m & -> & _ & _ & Hmin). destruct m as [|m]; [f_equal; lia|].
        specialize (Hmin 0 ltac:(lia)). simpl in Hmin. congruence.
    + rewrite (IH (S k) Hrefs). split.
      * intros (m & -> & Hm & Hp & Hmin). exists (S m).
        repeat split; try (simpl; lia); [exact Hp|].
        intros [|m'] Hm'; [exact E|]. apply Hmin. lia.
      * intros (m & -> & Hm & Hp & Hmin). destruct m as [|m];
          [simpl in Hp; congruence|].
        exists m. repeat split; try (simpl in *; lia); [exact Hp|].
        intros m' Hm'. apply (Hmin (S m')). lia.
Qed.

(** X8.  [translate_gate] returns the first entry of the catalog of which
    its argument is an initial segment, and exits with [UnknownGate],
    carrying the argument, exactly when there is none. *)
Theorem translate_gate_first_match (inp : string) :
  (forall i,
     translate_gate inp = Ok i
     <-> i < MAX_GATES
         /\ String.prefix inp (qasm_name i) = true
         /\ forall j, j < i -> String.prefix inp (qasm_name j) = false)
  /\ (forall e,
        translate_gate inp = Err e
        <-> e = UnknownGate inp /\ starts_catalog_name inp = false).
Proof.
  split.
  - intro i. unfold translate_gate.
    pose proof (scan_gates_first GATE_QASM 0 inp i eq_refl) as H.
    destruct (scan_gates GATE_QASM 0 inp) as [j|].
    + split.
      * intro E. injection E as ->.
        destruct (proj1 H eq_refl) as (m & -> & Hm & Hp & Hmin).
        now repeat split.
      * intros (Hi & Hp & Hmin). f_equal.
        assert (Hj : Some j = Some i); [|now injection Hj].
        apply H. exists i. now repeat split.
    + split; [discriminate|].
      intros (Hi & Hp & Hmin).
      assert (Hj : @None nat = Some i); [|discriminate Hj].
      apply H. exists i. now repeat split.
  - intro e. pose proof (translate_gate_spec inp) as Hs. split.
    + intro E. rewrite E in Hs. exact Hs.
    + intros [-> Hu]. now apply translate_gate_unknown.
Qed.

(** * Further properties of gate statements *)

Section GateNames.

Variable P : Platform.

Lemma read_name_chars (cap : nat) (s : string) :
  all_chars (is_name_char P) (read_name P cap s) = true
  /\ String.length (read_name P cap s) <= cap.
Proof.
  revert s. induction cap as [|cap IH]; intro s; cbn [read_name].
  - split; [reflexivity|simpl; lia].
  - destruct s as [|ch s]; [split; [reflexivity|simpl; lia]|].
    destruct (isalpha P ch || (ch =? "_")%char) eqn:E.
    + destruct (IH s) as [H1 H2]. cbn [all_chars String.length].
      unfold is_name_char at 1. rewrite E, H1. split; [reflexivity|lia].
    + split; [reflexivity|simpl; lia].
Qed.

Lemma read_name_maximal (cap : nat) (s : string) :
  String.length (read_name P cap s) < cap ->
  is_name_char P (deref (drop (String.length (read_name P cap s)) s)) = false.
Proof.
  revert s. induction cap as [|cap IH]; intro s; cbn [read_name].
  - simpl. lia.
  - destruct s as [|ch s]; [intros _; each_platform P; reflexivity|].
    destruct (isalpha P ch || (ch =? "_")%char) eqn:E.
    + cbn [String.length drop advance]. intro H. apply IH. lia.
    + intros _. exact E.
Qed.

Lemma read_name_full (cap : nat) (name tail : string) :
  all_chars (is_name_char P) name = true ->
  cap <= String.length name ->
  String.length (read_name P cap (name ++ tail)) = cap.
Proof.
  revert name. induction cap as [|cap IH]; intros name Hname Hcap;
    cbn [read_name]; [reflexivity|].
  destruct name as [|ch name]; [simpl in Hcap; lia|].
  cbn [all_chars] in Hname. apply andb_prop in Hname as [H1 H2].
  cbn [append]. unfold is_name_char in H1. rewrite H1.
  cbn [String.length]. f_equal. apply IH; [exact H2|simpl in Hcap; lia].
Qed.

End GateNames.

(** X9.  The name loop of [read_gate] copies the longest run of letters
    and underscores at the cursor, but never more than [cap] of them: the
    copy stays inside [gate_qasm], and when it is shorter than [cap] the
    character after it is no letter and no underscore. *)
Theorem read_name_longest_run (P : Platform) (cap : nat) (from : string) :
  exists tail,
    from = read_name P cap from ++ tail
    /\ all_chars (is_name_char P) (read_name P cap from) = true
    /\ String.length (read_name P cap from) <= cap
    /\ (String.length (read_name P cap from) < cap ->
        is_name_char P (deref tail) = false).
Proof.
  destruct (read_name_split P cap from) as [tail Htail].
  exists tail. split; [exact Htail|].
  destruct (read_name_chars P cap from) as [H1 H2].
  split; [exact H1|]. split; [exact H2|].
  intro Hlt. pose proof (read_name_maximal P cap from Hlt) as H.
  rewrite Htail in H at 2. now rewrite drop_append in H.
Qed.

(** X10.  A statement that starts with [MAX_GATENAME_LEN] or more letters
    and underscores ends the translation with [GateNameTooLong], before
    the catalog is looked at: the longest name [read_gate] can take has
    [MAX_GATENAME_LEN - 1] characters. *)
Theorem long_name_is_refused (P : Platform) (name tail to prev : string) :
  all_chars (is_name_char P) name = true ->
  MAX_GATENAME_LEN <= String.length name ->
  read_gate P (name ++ tail) to prev = Err GateNameTooLong.
Proof.
  intros Hname Hlen. unfold read_gate. cbv zeta.
  rewrite eatWS_id.
  2:{ destruct name as [|ch name]; [unfold MAX_GATENAME_LEN in Hlen; simpl in Hlen; lia|].
      cbn [all_chars] in Hname. apply andb_prop in Hname as [H1 _].
      exact (name_char_not_space P ch H1). }
  now rewrite (read_name_full P _ _ _ Hname Hlen), Nat.eqb_refl.
Qed.

Lemma long_name_is_refused_witness :
  read_gate windows_x86_64 ("controlled_swap_" ++ " q[0],q[1],q[2];") "" ""
  = Err GateNameTooLong.
Proof.
  apply (long_name_is_refused windows_x86_64 "controlled_swap_"); 
    [reflexivity|unfold MAX_GATENAME_LEN; simpl; lia].
Defined.

Section OperandLists.

Variable P : Platform.

Lemma decimal_digits (d : string) :
  decimal d = true ->
  before_eof d = true /\ all_chars (isDigit P) d = true.
Proof.
  intros [Hne Hd]%andb_prop. split; [exact Hne|].
  apply (all_chars_impl is_decimal_digit); [apply decimal_isDigit|exact Hd].
Qed.

(** After a comma, the operands [q[d1],...,q[dk]] up to the [;]. *)
Lemma read_inputs_after_comma (ds : list string) (fuel : nat) (rest to : string) :
  ds <> [] ->
  forallb decimal ds = true ->
  List.length ds <= fuel ->
  read_inputs P fuel ("," ++ qubit_list ds ++ ";" ++ rest) to
  = Ok (";" ++ rest, to ++ operands ds).
Proof.
  revert fuel to. induction ds as [|d ds IH]; intros fuel to Hne Hds Hfuel;
    [now elim Hne|].
  cbn [forallb] in Hds. apply andb_prop in Hds as [Hd Hds].
  destruct (decimal_digits d Hd) as [Hd1 Hd2].
  destruct fuel as [|fuel]; [simpl in Hfuel; lia|].
  cbn [qubit_list operands]. rewrite !append_assoc.
  cbn [read_inputs append deref advance].
  change (match_ (String "," _) 2 "->") with false.
  cbn [Ascii.eqb Bool.eqb negb andb before_eof].
  match goal with |- context [toQubit P (String "q" (String "[" (d ++ String "]" ?x)))] =>
    change (String "q" (String "[" (d ++ String "]" x)))
      with ("" ++ "q[" ++ d ++ "]" ++ x);
    rewrite (toQubit_ok P "" d x eq_refl Hd1 Hd2)
  end.
  cbn [bind].
  replace (to ++ String " " (d ++ operands ds))
    with (((to ++ " ") ++ d) ++ operands ds)
    by (rewrite !append_assoc; reflexivity).
  destruct ds as [|d' ds].
  - cbn [append operands]. rewrite append_nil_r.
    rewrite eatWS_id by reflexivity.
    apply read_inputs_stop. reflexivity.
  - rewrite eatWS_id by reflexivity.
    apply IH; [discriminate|exact Hds|simpl in *; lia].
Qed.

(** The operands of a statement, after the character that follows the
    gate name. *)
Lemma read_inputs_list (d : string) (ds : list string) (fuel : nat) (rest to : string) :
  forallb decimal (d :: ds) = true ->
  List.length (d :: ds) <= fuel ->
  read_inputs P fuel (" " ++ qubit_list (d :: ds) ++ ";" ++ rest) to
  = Ok (";" ++ rest, to ++ d ++ operands ds).
Proof.
  intros Hds Hfuel.
  cbn [forallb] in Hds. apply andb_prop in Hds as [Hd Hds].
  destruct (decimal_digits d Hd) as [Hd1 Hd2].
  destruct fuel as [|fuel]; [simpl in Hfuel; lia|].
  cbn [qubit_list]. rewrite !append_assoc.
  cbn [read_inputs append deref advance].
  change (match_ (String " " _) 2 "->") with false.
  cbn [Ascii.eqb Bool.eqb negb andb before_eof].
  match goal with |- context [toQubit P (String "q" (String "[" (d ++ String "]" ?x)))] =>
    change (String "q" (String "[" (d ++ String "]" x)))
      with ("" ++ "q[" ++ d ++ "]" ++ x);
    rewrite (toQubit_ok P "" d x eq_refl Hd1 Hd2)
  end.
  cbn [bind].
  replace (to ++ d ++ operands ds) with ((to ++ d) ++ operands ds)
    by (now rewrite append_assoc).
  destruct ds as [|d' ds].
  - cbn [append operands]. rewrite append_nil_r.
    rewrite eatWS_id by reflexivity.
    apply read_inputs_stop. reflexivity.
  - rewrite eatWS_id by reflexivity.
    apply read_inputs_after_comma; [discriminate|exact Hds|simpl in *; lia].
Qed.

Lemma qubit_list_length (ds : list string) :
  List.length ds <= String.length (qubit_list ds).
Proof.
  induction ds as [|d ds IH]; [simpl; lia|].
  cbn [qubit_list]. rewrite !length_append.
  destruct ds as [|d' ds]; [simpl; lia|].
  rewrite length_append. simpl in *. lia.
Qed.

End OperandLists.

Section MoreStatements.

Variable P : Platform.

Lemma read_gate_list (i : nat) (d : string) (ds : list string) (rest to prev : string) :
  i < MAX_GATES ->
  forallb decimal (d :: ds) = true ->
  read_gate P (qasm_name i ++ " " ++ qubit_list (d :: ds) ++ ";" ++ rest) to prev
  = Ok (rest, emit_mnemonic P (stim_name i) prev to ++ d ++ operands ds, stim_name i).
Proof.
  intros Hi Hds.
  destruct (catalog_name_shape P i Hi) as (Hne & Hname & Hlen & _).
  unfold read_gate. cbv zeta.
  rewrite eatWS_id.
  2:{ destruct (qasm_name i) as [|ch name]; [discriminate Hne|].
      cbn [all_chars] in Hname. apply andb_prop in Hname as [H1 _].
      exact (name_char_not_space P ch H1). }
  rewrite read_name_append; [|assumption|reflexivity|lia].
  assert (Hlen' : Nat.eqb (String.length (qasm_name i)) MAX_GATENAME_LEN = false)
    by (apply Nat.eqb_neq; lia).
  rewrite Hlen', drop_append, (translate_gate_catalog i Hi). cbn [bind].
  rewrite (read_inputs_list P d ds _ rest _ Hds).
  - reflexivity.
  - pose proof (qubit_list_length (d :: ds)).
    rewrite !length_append. simpl String.length at 1. lia.
Qed.

Lemma read_inputs_arrow (fuel : nat) (d ws tail to : string) :
  decimal d = true ->
  all_chars (isSpace P) ws = true ->
  read_inputs P (S fuel) (" q[" ++ d ++ "]" ++ ws ++ "->" ++ tail) to
  = Ok ("->" ++ tail, to ++ d).
Proof.
  intros Hd Hws. destruct (decimal_digits P d Hd) as [Hd1 Hd2].
  cbn [read_inputs append deref advance].
  change (match_ (String " " _) 2 "->") with false.
  cbn [Ascii.eqb Bool.eqb negb andb before_eof].
  match goal with |- context [toQubit P (String "q" (String "[" (d ++ String "]" ?x)))] =>
    change (String "q" (String "[" (d ++ String "]" x)))
      with ("" ++ "q[" ++ d ++ "]" ++ x);
    rewrite (toQubit_ok P "" d x eq_refl Hd1 Hd2)
  end.
  cbn [bind].
  change (String "-" (String ">" tail)) with ("->" ++ tail).
  rewrite (eatWS_spaces P _ _ Hws), eatWS_id by reflexivity.
  apply read_inputs_stop. reflexivity.
Qed.

Lemma loop_body_skip_ws (ws from to prev max_qubits : string) :
  all_chars (isSpace P) ws = true ->
  loop_body P (mkState (ws ++ from) to prev max_qubits)
  = loop_body P (mkState from to prev max_qubits).
Proof.
  intro Hws. unfold loop_body. cbv zeta. cbn [s_from s_to s_prev s_max_qubits].
  now rewrite (eatWS_spaces P _ _ Hws).
Qed.

Lemma loop_body_catalog_stmt (i : nat) (tail to prev max_qubits : string) :
  i < MAX_GATES ->
  loop_body P (mkState (qasm_name i ++ String " " tail) to prev max_qubits)
  = ('(from, to', prev') <- read_gate P (qasm_name i ++ String " " tail) to prev ;;
     Ok (Some (mkState from to' prev' max_qubits))).
Proof.
  intro Hi.
  destruct (catalog_name_shape P i Hi) as (Hne & Hname & _ & Hdir).
  unfold loop_body. cbv zeta. cbn [s_from s_to s_prev s_max_qubits].
  assert (Hch : is_name_char P (deref (qasm_name i ++ String " " tail)) = true).
  { destruct (qasm_name i) as [|ch name]; [discriminate Hne|].
    cbn [all_chars] in Hname. now apply andb_prop in Hname as [Hch _]. }
  rewrite eatWS_id by exact (name_char_not_space P _ Hch).
  rewrite (name_char_not_NUL P _ Hch).
  now destruct (at_directive_false _ (Hdir tail)) as (-> & -> & -> & -> & ->).
Qed.

Lemma to_stim_runs_skip_ws (ws from to prev max_qubits : string) r :
  all_chars (isSpace P) ws = true ->
  to_stim_runs P (mkState from to prev max_qubits) r ->
  to_stim_runs P (mkState (ws ++ from) to prev max_qubits) r.
Proof.
  intros Hws Hrun.
  destruct ws as [|w ws]; [exact Hrun|].
  pose proof (loop_body_skip_ws (String w ws) from to prev max_qubits Hws) as Hb.
  inversion Hrun as [s Hs|s Hs Hl|s e Hs Hl|s s' r' Hs Hl Hnext]; subst;
    cbn [s_from s_to s_max_qubits] in *.
  - apply (runs_break P (mkState (String w ws ++ from) to prev max_qubits));
      [reflexivity|].
    destruct from; [|discriminate Hs]. rewrite append_nil_r.
    now apply loop_body_blank.
  - apply (runs_break P (mkState (String w ws ++ from) to prev max_qubits));
      [reflexivity|congruence].
  - apply runs_exit; [reflexivity|congruence].
  - eapply runs_next; [reflexivity| |exact Hnext]. congruence.
Qed.

End MoreStatements.

(** X11.  A statement of a catalog gate with the operand list
    [q[d1],q[d2],...,q[dk]] stores the mnemonic as run compaction decides
    and then the [k] index texts separated by single spaces: each comma of
    the source becomes a space.  Alone in a file it translates to the line
    [STIM d1 d2 ... dk]. *)
Theorem operand_list_statement
  (P : Platform) (i : nat) (d : string) (ds : list string)
  (ws rest to prev max_qubits : string) :
  i < MAX_GATES ->
  forallb decimal (d :: ds) = true ->
  all_chars (isSpace P) ws = true ->
  loop_body P
    (mkState (ws ++ qasm_name i ++ " " ++ qubit_list (d :: ds) ++ ";" ++ rest)
             to prev max_qubits)
  = Ok (Some (mkState rest
                (emit_mnemonic P (stim_name i) prev to ++ d ++ operands ds)
                (stim_name i) max_qubits))
  /\ to_stim P (qasm_name i ++ " " ++ qubit_list (d :: ds) ++ ";")
     = Ok (stim_name i ++ operands (d :: ds) ++ eol P, "").
Proof.
  intros Hi Hds Hws.
  assert (Hstep : forall rest' to' prev' mq,
    loop_body P
      (mkState (qasm_name i ++ " " ++ qubit_list (d :: ds) ++ ";" ++ rest')
               to' prev' mq)
    = Ok (Some (mkState rest'
                  (emit_mnemonic P (stim_name i) prev' to' ++ d ++ operands ds)
                  (stim_name i) mq))).
  { intros rest' to' prev' mq.
    change (qasm_name i ++ " " ++ qubit_list (d :: ds) ++ ";" ++ rest')
      with (qasm_name i ++ String " " (qubit_list (d :: ds) ++ ";" ++ rest')).
    rewrite (loop_body_catalog_stmt P i _ _ _ _ Hi).
    change (qasm_name i ++ String " " (qubit_list (d :: ds) ++ ";" ++ rest'))
      with (qasm_name i ++ " " ++ qubit_list (d :: ds) ++ ";" ++ rest').
    now rewrite (read_gate_list P i d ds rest' to' prev' Hi Hds). }
  split.
  - rewrite (loop_body_skip_ws P _ _ _ _ _ Hws). apply Hstep.
  - replace (stim_name i ++ operands (d :: ds) ++ eol P)
      with ((("" ++ stim_name i ++ " ") ++ d ++ operands ds) ++ eol P)
      by (cbn [operands append]; now rewrite !append_assoc).
    apply to_stim_of_runs. unfold initial.
    replace (qasm_name i ++ " " ++ qubit_list (d :: ds) ++ ";")
      with (qasm_name i ++ " " ++ qubit_list (d :: ds) ++ ";" ++ "")
      by reflexivity.
    eapply runs_next;
      [apply before_eof_append, (catalog_name_shape P i Hi)|apply Hstep|].
    rewrite emit_mnemonic_first.
    now apply (runs_eof P (mkState "" _ _ _)).
Qed.

Lemma operand_list_statement_witness :
  loop_body linux_x86_64
    (mkState (nl ++ qasm_name 7 ++ " " ++ qubit_list ["0"; "12"] ++ ";" ++ nl)
             "H 0" "H" "13")
  = Ok (Some (mkState nl
                (emit_mnemonic linux_x86_64 (stim_name 7) "H" "H 0" ++ "0" ++ operands ["12"])
                (stim_name 7) "13"))
  /\ to_stim linux_x86_64 (qasm_name 7 ++ " " ++ qubit_list ["0"; "12"] ++ ";")
     = Ok (stim_name 7 ++ operands ["0"; "12"] ++ eol linux_x86_64, "").
Proof.
  apply (operand_list_statement linux_x86_64 7 "0" ["12"] nl nl "H 0" "H" "13");
    first [reflexivity | unfold MAX_GATES; lia].
Defined.

(** X12.  In a statement of a catalog gate, what stands from [->] to the
    end of the line is dropped and leaves nothing in the output: the
    classical target of [measure q[d] -> c[d];] is not translated. *)
Theorem classical_target_is_dropped
  (P : Platform) (i : nat) (d ws0 ws body rest to prev max_qubits : string) :
  i < MAX_GATES ->
  decimal d = true ->
  all_chars (isSpace P) ws0 = true ->
  all_chars (isSpace P) ws = true ->
  all_chars in_line body = true ->
  loop_body P
    (mkState (ws0 ++ qasm_name i ++ " q[" ++ d ++ "]" ++ ws ++ "->" ++ body
              ++ nl ++ rest)
             to prev max_qubits)
  = Ok (Some (mkState rest (emit_mnemonic P (stim_name i) prev to ++ d)
                      (stim_name i) max_qubits)).
Proof.
  intros Hi Hd Hws0 Hws Hbody.
  rewrite (loop_body_skip_ws P _ _ _ _ _ Hws0).
  change (qasm_name i ++ " q[" ++ d ++ "]" ++ ws ++ "->" ++ body ++ nl ++ rest)
    with (qasm_name i ++ String " " ("q[" ++ d ++ "]" ++ ws ++ "->" ++ body ++ nl ++ rest)).
  rewrite (loop_body_catalog_stmt P i _ _ _ _ Hi).
  destruct (catalog_name_shape P i Hi) as (Hne & Hname & Hlen & _).
  unfold read_gate. cbv zeta.
  rewrite eatWS_id.
  2:{ destruct (qasm_name i) as [|ch name]; [discriminate Hne|].
      cbn [all_chars] in Hname. apply andb_prop in Hname as [H1 _].
      exact (name_char_not_space P ch H1). }
  rewrite read_name_append; [|assumption|reflexivity|lia].
  assert (Hlen' : Nat.eqb (String.length (qasm_name i)) MAX_GATENAME_LEN = false)
    by (apply Nat.eqb_neq; lia).
  rewrite Hlen', drop_append, (translate_gate_catalog i Hi). cbn [bind].
  change (String.length (String " " ("q[" ++ d ++ "]" ++ ws ++ "->" ++ body ++ nl ++ rest)))
    with (S (String.length ("q[" ++ d ++ "]" ++ ws ++ "->" ++ body ++ nl ++ rest))).
  change (String " " ("q[" ++ d ++ "]" ++ ws ++ "->" ++ body ++ nl ++ rest))
    with (" q[" ++ d ++ "]" ++ ws ++ "->" ++ (body ++ nl ++ rest)).
  rewrite (read_inputs_arrow P _ d ws _ _ Hd Hws). cbn [bind].
  change (match_ ("->" ++ body ++ nl ++ rest) 2 "->") with true.
  cbn [append deref Ascii.eqb Bool.eqb].
  change (String "-" (String ">" (body ++ nl ++ rest)))
    with (("->" ++ body) ++ String LF rest).
  rewrite eatLine_line; [reflexivity|].
  cbn [append all_chars]. now rewrite Hbody.
Qed.

Lemma classical_target_is_dropped_witness :
  loop_body windows_x86_64
    (mkState ("" ++ qasm_name 12 ++ " q[" ++ "3" ++ "]" ++ " " ++ "->" ++ " c[3];"
              ++ nl ++ "")
             "H 3" "H" "5")
  = Ok (Some (mkState "" (emit_mnemonic windows_x86_64 (stim_name 12) "H" "H 3" ++ "3")
                      (stim_name 12) "5")).
Proof.
  apply (classical_target_is_dropped windows_x86_64 12 "3" "" " " " c[3];" "" "H 3" "H" "5");
    first [reflexivity | unfold MAX_GATES; lia].
Defined.

(** X13.  A NUL byte where a statement would start ends the translation
    at once and without a diagnostic: the output is what had been stored
    before it, and nothing after the NUL is read. *)
Theorem nul_byte_ends_translation
  (P : Platform) (ws rest to prev max_qubits : string) (r : result (string * string)) :
  all_chars (isSpace P) ws = true ->
  to_stim_runs P (mkState (ws ++ String NUL rest) to prev max_qubits) r
  <-> r = Ok (to, max_qubits).
Proof.
  intro Hws.
  assert (Hb : before_eof (ws ++ String NUL rest) = true) by (now destruct ws).
  assert (Hstep : loop_body P (mkState (ws ++ String NUL rest) to prev max_qubits)
                  = Ok None).
  { rewrite (loop_body_skip_ws P _ _ _ _ _ Hws). reflexivity. }
  split.
  - intro Hrun.
    inversion Hrun as [s Hs|s Hs Hl|s e Hs Hl|s s' r' Hs Hl Hnext]; subst;
      cbn [s_from s_to s_max_qubits] in *; congruence.
  - intros ->.
    now apply (runs_break P (mkState (ws ++ String NUL rest) to prev max_qubits)).
Qed.

Lemma nul_byte_ends_translation_witness :
  to_stim_runs windows_x86_64
    (mkState (nl ++ String NUL "x q[1];") "X 0" "X" "") (Ok ("X 0", ""))
  <-> Ok ("X 0", "") = Ok ("X 0", "").
Proof.
  apply (nul_byte_ends_translation windows_x86_64 nl "x q[1];" "X 0" "X" "").
  reflexivity.
Defined.

(** X14.  White space before the first statement, blank lines included,
    does not change the translation. *)
Theorem leading_space_is_ignored (P : Platform) (ws qasm : string) :
  all_chars (isSpace P) ws = true ->
  to_stim P (ws ++ qasm) = to_stim P qasm.
Proof.
  intro Hws. apply translates_to_stim.
  destruct (proj2 (translates_to_stim P qasm (to_stim P qasm)) eq_refl)
    as (r0 & Hrun & Hr).
  exists r0. split; [|exact Hr].
  now apply to_stim_runs_skip_ws.
Qed.

Lemma leading_space_is_ignored_witness :
  to_stim linux_x86_64 ((nl ++ " " ++ nl) ++ "x q[0];") = to_stim linux_x86_64 "x q[0];".
Proof.
  apply (leading_space_is_ignored linux_x86_64 (nl ++ " " ++ nl) "x q[0];").
  reflexivity.
Defined.

(** * Further properties of the loop *)

Section Cursor.

Variable P : Platform.













End Cursor.



(** X16.  The loop of [to_stim] ends on every input after at most one
    iteration per byte left to read: a budget of that many iterations is
    never used up, and a larger one gives the same result. *)
Theorem loop_ends_within_input_length (P : Platform) (fuel : nat) (s : State) :
  String.length (s_from s) <= fuel ->
  to_stim_loop P fuel s <> Err OutOfFuel
  /\ to_stim_loop P fuel s = to_stim_loop P (String.length (s_from s)) s.
Proof.
  intro Hfuel.
  pose proof (to_stim_loop_total P fuel s Hfuel) as H1.
  split; [exact H1|].
  symmetry. apply to_stim_runs_loop.
  now apply (to_stim_loop_sound P fuel).
Qed.

Lemma loop_ends_within_input_length_witness :
  to_stim_loop linux_x86_64 100 (initial "h q[0];") <> Err OutOfFuel
  /\ to_stim_loop linux_x86_64 100 (initial "h q[0];")
     = to_stim_loop linux_x86_64 (String.length (s_from (initial "h q[0];")))
         (initial "h q[0];").
Proof.
  apply (loop_ends_within_input_length linux_x86_64 100 (initial "h q[0];")).
  simpl. lia.
Defined.

(** * Further properties of the output *)

Section Alphabet.

Variable P : Platform.

Let ok (s : string) : Prop := all_chars (stim_char P) s = true.

Lemma ok_append (a b : string) : ok a -> ok b -> ok (a ++ b).
Proof.
  unfold ok. intros Ha Hb. now rewrite all_chars_append, Ha, Hb.
Qed.

Lemma ok_eol : ok (eol P).
Proof.
  unfold ok. each_platform P; reflexivity.
Qed.

Lemma ok_stim_name (i : nat) : ok (nth i GATE_STIM "").
Proof.
  unfold ok. do 13 (destruct i as [|i]; [reflexivity|]). now destruct i.
Qed.

Lemma ok_digits (n : string) : all_chars (isDigit P) n = true -> ok n.
Proof.
  apply all_chars_impl. intros ch H. unfold stim_char. now rewrite H.
Qed.

Lemma ok_emit_mnemonic (i : nat) (prev to : string) :
  ok to -> ok (emit_mnemonic P (nth i GATE_STIM "") prev to).
Proof.
  intro H. unfold emit_mnemonic.
  destruct (match_ _ _ prev); [apply ok_append; [exact H|reflexivity]|].
  apply ok_append.
  - destruct (negb (deref prev =? NUL)%char); [|exact H].
    apply ok_append; [exact H|apply ok_eol].
  - apply ok_append; [apply ok_stim_name|reflexivity].
Qed.

Lemma ok_read_inputs (fuel : nat) (from to from' to' : string) :
  read_inputs P fuel from to = Ok (from', to') -> ok to -> ok to'.
Proof.
  revert from to. induction fuel as [|fuel IH]; intros from to; cbn [read_inputs];
    destruct (negb (deref from =? ";")%char && negb (match_ from 2 "->")
              && before_eof from);
    try discriminate;
    try (intros E H; injection E as <- <-; exact H).
  destruct (toQubit P (advance from)) as [[n r]|e] eqn:Hq; cbn [bind];
    [|discriminate].
  intros E H. apply IH in E; [exact E|].
  apply toQubit_split in Hq as (_ & _ & _ & _ & Hn).
  apply ok_append; [|now apply ok_digits].
  destruct (deref from =? ",")%char; [|exact H].
  apply ok_append; [exact H|reflexivity].
Qed.

Lemma ok_read_gate (from to prev from' to' prev' : string) :
  read_gate P from to prev = Ok (from', to', prev') -> ok to -> ok to'.
Proof.
  unfold read_gate. cbv zeta.
  destruct (Nat.eqb _ MAX_GATENAME_LEN); [discriminate|].
  destruct (translate_gate _) as [i|e]; cbn [bind]; [|discriminate].
  match goal with |- context [read_inputs P ?n ?f ?t] =>
    destruct (read_inputs P n f t) as [[f1 t1]|e] eqn:Hr
  end; cbn [bind]; [|discriminate].
  intros E H. injection E as _ <- _.
  apply (ok_read_inputs _ _ _ _ _ Hr). now apply ok_emit_mnemonic.
Qed.

Lemma ok_loop_body (s s' : State) :
  loop_body P s = Ok (Some s') -> ok (s_to s) -> ok (s_to s').
Proof.
  unfold loop_body. cbv zeta.
  destruct (deref (eatWS P (s_from s)) =? NUL)%char; [discriminate|].
  destruct (match_ _ 8 "OPENQASM").
  { destruct (toFloat P _) as [[v r]|e]; cbn [bind]; [|discriminate].
    destruct (negb (PrimFloat.eqb v 2)); [discriminate|].
    intros E H. now injection E as <-. }
  destruct (match_ _ 4 "qreg").
  { destruct (toQubit P _) as [[n r]|e] eqn:Hq; cbn [bind]; [|discriminate].
    intros E H. injection E as <-. cbn [s_to].
    apply toQubit_split in Hq as (_ & _ & _ & _ & Hn).
    apply ok_append; [exact H|].
    apply (ok_append "#"); [reflexivity|].
    apply ok_append; [now apply ok_digits|apply ok_eol]. }
  destruct (match_ _ 4 "creg"); [intros E H; now injection E as <-|].
  destruct (match_ _ 7 "include"); [intros E H; now injection E as <-|].
  destruct (match_ _ 4 "gate"); [intros E H; now injection E as <-|].
  destruct (read_gate P _ _ _) as [[[f t] p]|e] eqn:Hg; cbn [bind]; [|discriminate].
  intros E H. injection E as <-. cbn [s_to].
  exact (ok_read_gate _ _ _ _ _ _ Hg H).
Qed.

Lemma ok_to_stim_runs (s : State) (out max_qubits : string) :
  to_stim_runs P s (Ok (out, max_qubits)) -> ok (s_to s) -> ok out.
Proof.
  intro H. remember (Ok (out, max_qubits)) as r eqn:Er.
  induction H as [s Hb|s Hb Hs|s e Hb Hs|s s' r Hb Hs H IH]; intro Hok.
  - now injection Er as <- <-.
  - now injection Er as <- <-.
  - discriminate Er.
  - apply (IH Er). exact (ok_loop_body _ _ Hs Hok).
Qed.

Lemma all_chars_occurs (p : ascii -> bool) (ch : ascii) (s : string) :
  all_chars p s = true -> p ch = false -> occurs ch s = false.
Proof.
  intros Hs Hch. induction s as [|c s IH]; [reflexivity|].
  cbn [all_chars] in Hs. apply andb_prop in Hs as [H1 H2].
  cbn [occurs]. rewrite (IH H2), orb_false_r.
  destruct (c =? ch)%char eqn:E; [|reflexivity].
  apply Ascii.eqb_eq in E. congruence.
Qed.

End Alphabet.

(** X17.  Every byte of a translation is a character of a Stim mnemonic,
    a space, the [#] of a header, a carriage return, a line feed, or a
    byte that [isDigit] accepts.  No bracket, semicolon, comma, arrow or
    register name of the source gets into the output. *)
Theorem output_alphabet (P : Platform) (qasm out max_qubits : string) :
  to_stim P qasm = Ok (out, max_qubits) ->
  all_chars (stim_char P) out = true
  /\ occurs "[" out = false /\ occurs "]" out = false
  /\ occurs ";" out = false /\ occurs "," out = false
  /\ occurs "-" out = false /\ occurs ">" out = false
  /\ occurs "q" out = false /\ occurs "c" out = false.
Proof.
  intro H.
  assert (Hok : all_chars (stim_char P) out = true).
  { apply translates_to_stim in H as (r0 & Hrun & Hr).
    destruct r0 as [[to mq]|e]; [|discriminate Hr].
    cbn in Hr. injection Hr as -> ->.
    apply ok_append; [|apply ok_eol].
    exact (ok_to_stim_runs P _ _ _ Hrun eq_refl). }
  split; [exact Hok|].
  repeat split; apply (all_chars_occurs (stim_char P) _ _ Hok);
    each_platform P; reflexivity.
Qed.

Lemma output_alphabet_witness :
  all_chars (stim_char linux_x86_64) ("M 0" ++ eol linux_x86_64) = true
  /\ occurs "[" ("M 0" ++ eol linux_x86_64) = false
  /\ occurs "]" ("M 0" ++ eol linux_x86_64) = false
  /\ occurs ";" ("M 0" ++ eol linux_x86_64) = false
  /\ occurs "," ("M 0" ++ eol linux_x86_64) = false
  /\ occurs "-" ("M 0" ++ eol linux_x86_64) = false
  /\ occurs ">" ("M 0" ++ eol linux_x86_64) = false
  /\ occurs "q" ("M 0" ++ eol linux_x86_64) = false
  /\ occurs "c" ("M 0" ++ eol linux_x86_64) = false.
Proof.
  apply (output_alphabet linux_x86_64 "measure q[0] -> c[0];" _ "").
  reflexivity.
Defined.

Section QubitCount.

Variable P : Platform.





End QubitCount.



(** * Further properties: compaction, diagnostics, file name, programs *)

Lemma deref_NUL_free (s : string) :
  all_chars (not_char NUL) s = true ->
  (deref s =? NUL)%char = negb (before_eof s).
Proof.
  destruct s as [|ch s]; [reflexivity|].
  cbn [all_chars deref before_eof negb]. unfold not_char at 1.
  intros [H _]%andb_prop. now apply negb_true_iff in H.
Qed.

Lemma match_whole (a b : string) :
  all_chars (not_char NUL) b = true ->
  match_ a (String.length a) b = before_eof b && (a =? b)%string.
Proof.
  intro Hb. destruct b as [|c b]; [reflexivity|]. cbn [before_eof andb].
  unfold match_.
  destruct (match_loop a (String c b) 0) as [n|] eqn:E.
  - destruct (match_loop_split _ _ _ _ Hb E) as [-> [tail ->]].
    rewrite length_append. cbn [Nat.add].
    destruct tail as [|t tail].
    + rewrite append_nil_r, String.eqb_refl. apply Nat.eqb_eq. simpl. lia.
    + assert (H1 : Nat.eqb (String.length (String c b) + String.length (String t tail))
                          (String.length (String c b)) = false)
        by (apply Nat.eqb_neq; simpl; lia).
      rewrite H1. symmetry. apply String.eqb_neq. intro H.
      apply (f_equal String.length) in H. rewrite length_append in H.
      simpl in H. lia.
  - symmetry. apply String.eqb_neq. intros ->.
    rewrite <- (append_nil_r (String c b)) in E at 1.
    now rewrite match_loop_append in E.
Qed.

(** X19.  The run-compaction test of [read_gate] is an equality test: with
    nothing written before, the mnemonic and a space are stored; with the
    same mnemonic written last, only a space; with another one, the line
    terminator, the mnemonic and a space. *)
Theorem compaction_rule (P : Platform) (gate_stim prev to : string) :
  all_chars (not_char NUL) prev = true ->
  emit_mnemonic P gate_stim prev to
  = if (prev =? "")%string then to ++ gate_stim ++ " "
    else if (gate_stim =? prev)%string then to ++ " "
    else to ++ eol P ++ gate_stim ++ " ".
Proof.
  intro Hprev. unfold emit_mnemonic.
  rewrite (match_whole _ _ Hprev), (deref_NUL_free _ Hprev).
  destruct prev as [|c prev]; [reflexivity|].
  cbn [before_eof andb negb String.eqb].
  destruct (gate_stim =? String c prev)%string; [reflexivity|].
  now rewrite append_assoc.
Qed.

Lemma compaction_rule_witness :
  emit_mnemonic linux_x86_64 "CX" "H" "H 0"
  = if ("H" =? "")%string then "H 0" ++ "CX" ++ " "
    else if ("CX" =? "H")%string then "H 0" ++ " "
    else "H 0" ++ eol linux_x86_64 ++ "CX" ++ " ".
Proof.
  apply (compaction_rule linux_x86_64 "CX" "H" "H 0"). reflexivity.
Defined.

Section Diagnostics.

Variable P : Platform.

(** What an exit of the translation can be. *)
Let sound (e : error) : Prop :=
  match e with
  | UnknownGate name =>
      all_chars (is_name_char P) name = true
      /\ String.length name < MAX_GATENAME_LEN
      /\ starts_catalog_name name = false
  | OutOfFuel => False
  | _ => True
  end.

Lemma sound_read_gate (from to prev : string) (e : error) :
  read_gate P from to prev = Err e -> sound e.
Proof.
  unfold read_gate. cbv zeta.
  pose proof (read_name_chars P MAX_GATENAME_LEN (eatWS P from)) as [Hc Hl].
  destruct (Nat.eqb _ MAX_GATENAME_LEN) eqn:En;
    [intro E; injection E as <-; exact I|].
  apply Nat.eqb_neq in En.
  pose proof (translate_gate_spec (read_name P MAX_GATENAME_LEN (eatWS P from))) as Ht.
  destruct (translate_gate _) as [i|e']; cbn [bind].
  - match goal with |- context [read_inputs P ?n ?f ?t] =>
      pose proof (read_inputs_length P n f t (le_n _)) as Hr;
      destruct (read_inputs P n f t) as [[f1 t1]|e']
    end; cbn [bind]; [discriminate|].
    intro E. injection E as <-. now subst e'.
  - intro E. injection E as <-. destruct Ht as [-> Hu].
    unfold sound. repeat split; [exact Hc|lia|exact Hu].
Qed.

Lemma sound_loop_body (s : State) (e : error) :
  loop_body P s = Err e -> sound e.
Proof.
  unfold loop_body. cbv zeta.
  destruct (deref (eatWS P (s_from s)) =? NUL)%char; [discriminate|].
  destruct (match_ _ 8 "OPENQASM").
  { match goal with |- context [toFloat P ?a] =>
      pose proof (toFloat_length P a) as Hf; destruct (toFloat P a) as [[v r]|e']
    end; cbn [bind].
    - destruct (negb (PrimFloat.eqb v 2)); [|discriminate].
      intro E. now injection E as <-.
    - intro E. injection E as <-. now destruct Hf as [-> | ->]. }
  destruct (match_ _ 4 "qreg").
  { destruct (toQubit P _) as [[n r]|e'] eqn:Hq; cbn [bind]; [discriminate|].
    intro E. injection E as <-. apply toQubit_error in Hq. now subst e'. }
  destruct (match_ _ 4 "creg"); [discriminate|].
  destruct (match_ _ 7 "include"); [discriminate|].
  destruct (match_ _ 4 "gate"); [discriminate|].
  destruct (read_gate P _ _ _) as [[[f t] p]|e'] eqn:Hg; cbn [bind]; [discriminate|].
  intro E. injection E as <-. exact (sound_read_gate _ _ _ _ Hg).
Qed.

Lemma sound_to_stim_runs (s : State) (e : error) :
  to_stim_runs P s (Err e) -> sound e.
Proof.
  intro H. remember (Err e) as r eqn:Er.
  induction H as [s Hb|s Hb Hs|s e' Hb Hs|s s' r Hb Hs H IH];
    try discriminate Er.
  - injection Er as ->. exact (sound_loop_body _ _ Hs).
  - exact (IH Er).
Qed.

End Diagnostics.

(** X20.  When the translation ends with [UnknownGate], the name it
    carries is the run of letters and underscores read at the statement,
    shorter than [MAX_GATENAME_LEN], and no initial segment of a catalog
    name; every other end of a translation is a result or one of the
    other exits, never a loop that does not end. *)
Theorem diagnostics_of_to_stim (P : Platform) (qasm : string) (e : error) :
  to_stim P qasm = Err e ->
  match e with
  | UnknownGate name =>
      all_chars (is_name_char P) name = true
      /\ String.length name < MAX_GATENAME_LEN
      /\ starts_catalog_name name = false
  | OutOfFuel => False
  | _ => True
  end.
Proof.
  intro H. apply translates_to_stim in H as (r0 & Hrun & Hr).
  destruct r0 as [[to mq]|e0]; [discriminate Hr|].
  cbn in Hr. injection Hr as ->.
  exact (sound_to_stim_runs P _ _ Hrun).
Qed.

Lemma diagnostics_of_to_stim_witness :
  all_chars (is_name_char windows_x86_64) "rz" = true
  /\ String.length "rz" < MAX_GATENAME_LEN
  /\ starts_catalog_name "rz" = false.
Proof.
  apply (diagnostics_of_to_stim windows_x86_64 ("h q[0];" ++ nl ++ "rz(0.5) q[0];")
           (UnknownGate "rz")).
  reflexivity.
Defined.

Lemma find_last_of_none (ch : ascii) (s : string) :
  all_chars (not_char ch) s = true -> find_last_of ch s = None.
Proof.
  induction s as [|c s IH]; [reflexivity|].
  cbn [all_chars find_last_of]. unfold not_char at 1.
  intros [H1 H2]%andb_prop. apply negb_true_iff in H1.
  now rewrite (IH H2), H1.
Qed.

Lemma find_last_of_append (ch : ascii) (stem ext : string) :
  all_chars (not_char ch) ext = true ->
  find_last_of ch (stem ++ String ch ext) = Some (String.length stem).
Proof.
  intro Hext. induction stem as [|c stem IH]; cbn [append find_last_of String.length].
  - now rewrite (find_last_of_none _ _ Hext), Ascii.eqb_refl.
  - now rewrite IH.
Qed.

Lemma substring_append (a b : string) :
  String.substring 0 (String.length a) (a ++ b) = a.
Proof.
  induction a as [|c a IH]; [now destruct b|].
  cbn [append String.length String.substring]. now rewrite IH.
Qed.

(** X21.  The output file of [to_stim] is named after the input file with
    what follows its last dot replaced by [stim], whatever dots and
    separators come before ([circuit.qasm] gives [circuit.stim]); a path
    without a dot gets [.stim] appended. *)
Theorem stim_path_replaces_extension (stem ext : string) :
  all_chars (not_char ".") ext = true ->
  stim_file_path (stem ++ "." ++ ext) = stem ++ ".stim"
  /\ stim_file_path ext = ext ++ ".stim".
Proof.
  intro Hext. unfold stim_file_path. split.
  - cbn [append]. now rewrite (find_last_of_append _ _ _ Hext), substring_append.
  - now rewrite (find_last_of_none _ _ Hext).
Qed.

Lemma stim_path_replaces_extension_witness :
  stim_file_path ("./bench.v2/bell" ++ "." ++ "qasm") = "./bench.v2/bell" ++ ".stim"
  /\ stim_file_path "qasm" = "qasm" ++ ".stim".
Proof.
  apply (stim_path_replaces_extension "./bench.v2/bell" "qasm"). reflexivity.
Defined.

Section Programs.

Variable P : Platform.

Lemma loop_body_version_2 (rest to prev max_qubits : string) :
  loop_body P (mkState ("OPENQASM 2.0;" ++ nl ++ rest) to prev max_qubits)
  = Ok (Some (mkState rest to prev max_qubits)).
Proof.
  reflexivity.
Qed.

Lemma loop_body_qreg_line (n rest to prev max_qubits : string) :
  decimal n = true ->
  loop_body P (mkState ("qreg q[" ++ n ++ "];" ++ nl ++ rest) to prev max_qubits)
  = Ok (Some (mkState rest (to ++ "#" ++ n ++ eol P) prev n)).
Proof.
  intro Hn. destruct (decimal_digits P n Hn) as [H1 H2].
  unfold loop_body. cbv zeta. cbn [s_from s_to s_prev s_max_qubits].
  rewrite eatWS_id by reflexivity.
  change (drop 4 ("qreg q[" ++ n ++ "];" ++ nl ++ rest))
    with (" " ++ "q[" ++ n ++ "]" ++ (";" ++ nl ++ rest)).
  change (match_ ("qreg q[" ++ _) 8 "OPENQASM") with false.
  change (match_ ("qreg q[" ++ n ++ "];" ++ nl ++ rest) 4 "qreg") with true.
  cbn [deref append Ascii.eqb Bool.eqb NUL].
  change (String " " (String "q" (String "[" (n ++ String "]" (String ";" (nl ++ rest))))))
    with (" " ++ "q[" ++ n ++ "]" ++ (";" ++ nl ++ rest)).
  now rewrite (toQubit_ok P " " n _ eq_refl H1 H2).
Qed.

End Programs.

(** X22.  A program in the usual order (version 2.0, an [include] line,
    [qreg q[n];] with [n] of at most [MAX_QUBIT_DIGITS] digits, a [creg]
    line, then statements of one catalog gate on single qubits) translates
    to two lines: the header [#n], then the Stim mnemonic with the
    operands.  Each ends in the line terminator (a line feed, after a
    carriage return in the Linux and Cygwin build) and holds no line feed
    before it, and [n] is the count that is logged. *)
Theorem preamble_then_gates
  (P : Platform) (incl n cbody : string) (i : nat) (d : string) (ds : list string) :
  all_chars in_line incl = true ->
  all_chars in_line cbody = true ->
  decimal n = true ->
  String.length n <= MAX_QUBIT_DIGITS ->
  i < MAX_GATES ->
  forallb decimal (d :: ds) = true ->
  to_stim P ("OPENQASM 2.0;" ++ nl ++ "include" ++ incl ++ nl
             ++ "qreg q[" ++ n ++ "];" ++ nl ++ "creg" ++ cbody ++ nl
             ++ gate_stmts (qasm_name i) (d :: ds))
  = Ok (("#" ++ n) ++ (if linux_or_cygwin P then String "013" (String "010" "") else String "010" "")
        ++ (stim_name i ++ operands (d :: ds)) ++ (if linux_or_cygwin P then String "013" (String "010" "") else String "010" ""), n)
  /\ line_feeds ("#" ++ n) = 0
  /\ line_feeds (stim_name i ++ operands (d :: ds)) = 0.
Proof.
  intros Hincl Hcbody Hn _ Hi Hdec.
  rewrite <- !(eol_bytes P).
  pose proof Hdec as Hds.
  cbn [forallb] in Hds. apply andb_prop in Hds as [Hd Hds].
  split; [|split].
  - replace (("#" ++ n) ++ eol P ++ (stim_name i ++ operands (d :: ds)) ++ eol P)
      with ((((("" ++ "#" ++ n ++ eol P) ++ stim_name i ++ " ") ++ d) ++ operands ds)
            ++ eol P)
      by (cbn [operands append]; rewrite !append_assoc; cbn [append];
          now rewrite ?append_assoc).
    apply to_stim_of_runs. unfold initial.
    eapply runs_next; [reflexivity|apply loop_body_version_2|].
    eapply runs_next;
      [reflexivity
      |apply (loop_body_skipped_line P "" "include" incl);
         [reflexivity|simpl; tauto|exact Hincl]|].
    eapply runs_next; [reflexivity|now apply loop_body_qreg_line|].
    eapply runs_next;
      [reflexivity
      |apply (loop_body_skipped_line P "" "creg" cbody);
         [reflexivity|simpl; tauto|exact Hcbody]|].
    cbn [gate_stmts]. rewrite gate_stmt_append.
    eapply runs_next;
      [apply before_eof_append, (catalog_name_shape P i Hi)
      |apply (loop_body_catalog_gate P i ""); [exact Hi|reflexivity|exact Hd]|].
    rewrite emit_mnemonic_first. now apply runs_fused.
  - apply andb_prop in Hn as [_ Hn].
    cbn [append line_feeds]. now rewrite (line_feeds_decimal n Hn).
  - rewrite line_feeds_append, line_feeds_stim_name.
    now rewrite (line_feeds_operands _ Hdec).
Qed.

Lemma preamble_then_gates_witness :
  to_stim linux_x86_64
    ("OPENQASM 2.0;" ++ nl ++ "include" ++ " qelib1.inc;" ++ nl
     ++ "qreg q[" ++ "3" ++ "];" ++ nl ++ "creg" ++ " c[3];" ++ nl
     ++ gate_stmts (qasm_name 4) ("0" :: ["1"; "2"]))
  = Ok ("#3" ++ String "013" (String "010" "") ++ "H 0 1 2" ++ String "013" (String "010" ""), "3")
  /\ line_feeds "#3" = 0
  /\ line_feeds "H 0 1 2" = 0.
Proof.
  apply (preamble_then_gates linux_x86_64 " qelib1.inc;" "3" " c[3];" 4 "0" ["1"; "2"]);
    first [reflexivity | unfold MAX_GATES; lia | unfold MAX_QUBIT_DIGITS; simpl; lia].
Defined.

Lemma isDigit_decimal_where_plain (P : Platform) (ch : ascii) :
  char_is_signed P = false \/ is_ascii7 ch = true ->
  isDigit P ch = is_decimal_digit ch.
Proof.
  rewrite isDigit_spec. intros [->|H]; [now rewrite orb_false_r|].
  unfold is_ascii7 in H. apply N.ltb_lt in H.
  assert (Hle : (128 <=? N_of_ascii ch)%N = false) by (apply N.leb_gt; exact H).
  now rewrite Hle, andb_false_r, orb_false_r.
Qed.

(** X23.  Where plain [char] is unsigned, and on every platform when the
    text at the cursor is 7-bit, [toQubit] succeeds exactly on optional
    white space, [q[], a non-empty run of decimal digits and []]; it
    returns the digits as they stand and the cursor after the bracket, and
    fails with [MalformedQubitRef] on everything else. *)
Theorem toQubit_reads_decimal_index (P : Platform) (str n rest : string) :
  char_is_signed P = false \/ all_chars is_ascii7 str = true ->
  (toQubit P str = Ok (n, rest)
   <-> exists ws,
         str = ws ++ "q[" ++ n ++ "]" ++ rest
         /\ all_chars (isSpace P) ws = true
         /\ decimal n = true)
  /\ ((exists n' rest', toQubit P str = Ok (n', rest'))
      \/ toQubit P str = Err MalformedQubitRef).
Proof.
  intro Hplain. split; [|apply toQubit_outcome].
  rewrite toQubit_spec. unfold decimal.
  split; intros (ws & Hs & Hws & H); exists ws; (split; [exact Hs|]);
    (split; [exact Hws|]).
  - destruct H as [H1 H2]. rewrite H1. cbn [andb].
    assert (Hn : char_is_signed P = false \/ all_chars is_ascii7 n = true).
    { destruct Hplain as [Hu|Ha]; [now left|right].
      rewrite Hs in Ha. rewrite all_chars_append in Ha.
      apply andb_prop in Ha as [_ Ha]. cbn [append all_chars] in Ha.
      apply andb_prop in Ha as [_ Ha]. apply andb_prop in Ha as [_ Ha].
      rewrite all_chars_append in Ha. now apply andb_prop in Ha as [Ha _]. }
    clear - H2 Hn. induction n as [|ch n IH]; [reflexivity|].
    cbn [all_chars] in *. apply andb_prop in H2 as [Hd H2].
    assert (Hch : char_is_signed P = false \/ is_ascii7 ch = true)
      by (destruct Hn as [Hu|[Ha _]%andb_prop]; [now left|now right]).
    rewrite <- (isDigit_decimal_where_plain P ch Hch), Hd. cbn [andb].
    apply IH; [exact H2|].
    destruct Hn as [Hu|[_ Ha]%andb_prop]; [now left|now right].
  - apply andb_prop in H as [H1 H2]. split; [exact H1|].
    apply (all_chars_impl is_decimal_digit); [apply decimal_isDigit|exact H2].
Qed.

Lemma toQubit_reads_decimal_index_witness :
  (toQubit linux_x86_64 " q[12], q[3];" = Ok ("12", ", q[3];")
   <-> exists ws,
         " q[12], q[3];" = ws ++ "q[" ++ "12" ++ "]" ++ ", q[3];"
         /\ all_chars (isSpace linux_x86_64) ws = true
         /\ decimal "12" = true)
  /\ ((exists n' rest', toQubit linux_x86_64 " q[12], q[3];" = Ok (n', rest'))
      \/ toQubit linux_x86_64 " q[12], q[3];" = Err MalformedQubitRef).
Proof.
  apply (toQubit_reads_decimal_index linux_x86_64 " q[12], q[3];" "12" ", q[3];").
  right. reflexivity.
Defined.
